(** * Least-Squares Monte Carlo pricing (LSMC_with_TensorFlow.ipynb)

    A shallow embedding of the notebook's auxiliary functions
    ([chebyshev_basis], [ridge_regression], [first_one], [scale],
    [advance]) and of its main cell, with the properties its
    specification states about them.

    Numbers.  Tensors of floats are modelled over the exact rationals
    [Qc]: no rounding, no overflow.  The transcendental and library
    primitives the notebook calls ([tf.exp], [np.sqrt],
    [tf.linalg.lstsq], [tf.random_normal]) are parameters of the
    development.  Where the notebook's arithmetic leaves the finite
    floats (the division by zero inside [scale] on a constant
    cross-section, the square root of a negative step, the mean of an
    empty tensor) TensorFlow raises nothing and computes on with NaN; the
    run modelled here stops there with the outcome [NotFinite].  [scale]
    is written once, over a class of scalar types, and instantiated both
    at [Qc] and at a type of floats with their special values.

    Keys.  The notebook keys its dictionaries by times rounded to six
    decimals, [np.round(t ± Δt, 6)].  These are binary64 floats: a key is
    modelled by the rational the float is, and the operations on times
    ([T / m], [np.arange], [t ± Δt], [np.round]) round as binary64
    does.  A subscript whose rounded key was never stored raises
    [KeyError], as in the notebook for most grids. *)

From Stdlib Require Import QArith Qround Qcanon Sorted.
From stdpp Require Import base decidable option list numbers gmap.

Local Open Scope Qc_scope.

(** ** Scalars *)

Definition qc (a : Z) (b : positive) : Qc := Q2Qc (a # b).

(** The element type of a tensor, as far as [scale] uses it. *)
Class Dtype (A : Type) := {
  const : Qc → A;
  add : A → A → A;
  sub : A → A → A;
  mul : A → A → A;
  div : A → A → A;
  minimum : A → A → A;
  maximum : A → A → A
}.

Definition Qcmin (a b : Qc) : Qc := if decide (b < a) then b else a.
Definition Qcmax (a b : Qc) : Qc := if decide (a < b) then b else a.

(** On [Qc] a division by zero gives 0, where the floats give an
    infinity or NaN: [scale] is read at [Qc] only on a cross-section
    that is not constant; the pricing run scales through the floats
    ([scale_floats]). *)
#[export] Instance Qc_dtype : Dtype Qc := {|
  const := id; add := Qcplus; sub := Qcminus; mul := Qcmult; div := Qcdiv;
  minimum := Qcmin; maximum := Qcmax
|}.

(** ** Tensor primitives *)

Abbreviation vec := (list Qc).
Abbreviation matrix := (list (list Qc)).

Definition ones_like (x : vec) : vec := (λ _, 1) <$> x.
Definition zeros (n : nat) : vec := replicate n 0.
Definition ones (n : nat) : vec := replicate n 1.

(** scalar * tensor, tensor * scalar *)
Definition smul (c : Qc) (x : vec) : vec := Qcmult c <$> x.
Definition muls (x : vec) (c : Qc) : vec := (λ a, a * c) <$> x.
(** elementwise operations on tensors of one shape *)
Definition vadd (x y : vec) : vec := zip_with Qcplus x y.
Definition vsub (x y : vec) : vec := zip_with Qcminus x y.
Definition vmul (x y : vec) : vec := zip_with Qcmult x y.
(** [x > y] elementwise *)
Definition greater (x y : vec) : list bool := zip_with (λ a b, bool_decide (b < a)) x y.

(** [tf.where(cond, x, y)] *)
Fixpoint tf_where (c : list bool) (x y : vec) : vec :=
  match c, x, y with
  | b :: c', a :: x', a' :: y' => (if b then a else a') :: tf_where c' x' y'
  | _, _, _ => []
  end.

(** [tf.stack(cols, axis=1)]: the tensors of [cols] become the columns. *)
Definition stack_axis1 (cols : list vec) : matrix :=
  (λ i, (λ c, nth i c 0) <$> cols) <$> seq 0 (length (hd [] cols)).

(** [M[:, i]] *)
Definition column (i : nat) (M : matrix) : vec := (λ row, nth i row 0) <$> M.

Definition dot (a b : vec) : Qc := foldr Qcplus 0 (zip_with Qcmult a b).

(** [X @ β] for a one-column [β], given by its column. *)
Definition matvec (X : matrix) (β : vec) : vec := (λ row, dot row β) <$> X.

(** [tf.cumprod(x, axis=1)] on one row *)
Fixpoint cumprod_from (acc : Qc) (l : vec) : vec :=
  match l with
  | [] => []
  | a :: l' => (acc * a) :: cumprod_from (acc * a) l'
  end.
Definition cumprod (l : vec) : vec := cumprod_from 1 l.

(** [tf.add_n]: elementwise sum of a non-empty list of tensors *)
Definition add_n (l : list vec) : vec :=
  match l with
  | [] => []
  | v :: l' => foldl vadd v l'
  end.

(** [tf.maximum(0., K - S)] *)
Definition put_payoff (K : Qc) (S : vec) : vec := (λ s, Qcmax 0 (K - s)) <$> S.

Definition reduce_sum (x : vec) : Qc := foldr Qcplus 0 x.

Section Reductions.
Context {A : Type} `{Dtype A}.

(** [tf.reduce_min], [tf.reduce_max] of a non-empty vector (on the
    empty one TensorFlow answers with an infinity, which [Qc] lacks). *)
Definition reduce_min (x : list A) : A :=
  match x with
  | [] => const 0
  | a :: l => foldl minimum a l
  end.
Definition reduce_max (x : list A) : A :=
  match x with
  | [] => const 0
  | a :: l => foldl maximum a l
  end.

(** <<
    def scale(x):
        xmin = tf.reduce_min(x)
        xmax = tf.reduce_max(x)
        a = 2 / (xmax - xmin)
        b = 1 - a * xmax
        return a * x + b
    >> *)
Definition scale (x : list A) : list A :=
  let xmin := reduce_min x in
  let xmax := reduce_max x in
  let a := div (const 2) (sub xmax xmin) in
  let b := sub (const 1) (mul a xmax) in
  (λ xi, add (mul a xi) b) <$> x.
End Reductions.

(** ** Auxiliary functions of the notebook *)

(** <<
    def chebyshev_basis(x, k):
        B = {}
        B[0] = tf.ones_like(x)
        B[1] = x
        for n in range(2, k):
            B[n] = 2 * x * B[n - 1] - B[n - 2]
        return tf.stack(list(B.values()), axis=1)
    >>
    The keys of [B] are inserted in increasing order 0, 1, 2, ..., so
    [B] is the list of its values in insertion order and [B[n] = ...]
    appends at position [n]. *)
Definition chebyshev_step (x : vec) (B : list vec) (n : nat) : list vec :=
  B ++ [vsub (vmul (smul 2 x) (nth (n - 1) B [])) (nth (n - 2) B [])].

Definition chebyshev_columns (x : vec) (k : nat) : list vec :=
  foldl (chebyshev_step x) [ones_like x; x] (seq 2 (k - 2)).

Definition chebyshev_basis (x : vec) (k : nat) : matrix :=
  stack_axis1 (chebyshev_columns x k).

(** <<
    def first_one(x):
        original = x
        x = tf.cast(x > 0, x.dtype)
        n_columns = x.shape.as_list()[1]
        batch_size = x.shape.as_list()[0]
        x_not = 1 - x
        sum_x = tf.minimum(tf.cumprod(x_not, axis=1), 1.)
        ones = tf.ones([batch_size, 1])
        lag = sum_x[:, :(n_columns - 1)]
        lag = tf.concat([ones, lag], axis=1)
        return original * (lag * x)
    >> *)
Definition cast_positive (a : Qc) : Qc := if decide (0 < a) then 1 else 0.

Definition n_columns (x : matrix) : nat := length (hd [] x).

Definition first_one_row (n_columns : nat) (original : vec) : vec :=
  let x := cast_positive <$> original in
  let x_not := (λ a, 1 - a) <$> x in
  let sum_x := (λ a, Qcmin a 1) <$> cumprod x_not in
  let lag := take (n_columns - 1) sum_x in
  let lag := 1 :: lag in
  vmul original (vmul lag x).

Definition first_one (x : matrix) : matrix :=
  first_one_row (n_columns x) <$> x.

(** ** IEEE special values

    Floats with their infinities and NaN, and exact arithmetic on the
    finite ones.  Zero is unsigned and divides as [+0], the zero that
    [xmax - xmin] is when the two are equal. *)
Module Ieee.
Inductive xval : Type :=
  | Fin (q : Qc)
  | PInf
  | NInf
  | NaN.

Definition inf_of (positive : bool) : xval := if positive then PInf else NInf.

(** [Some true] for a positive value, [Some false] for a negative one,
    [None] for zero and NaN. *)
Definition is_pos (x : xval) : option bool :=
  match x with
  | Fin q => if decide (0 < q) then Some true
             else if decide (q < 0) then Some false else None
  | PInf => Some true
  | NInf => Some false
  | NaN => None
  end.

Definition xopp (x : xval) : xval :=
  match x with
  | Fin q => Fin (- q)
  | PInf => NInf
  | NInf => PInf
  | NaN => NaN
  end.

Definition xadd (x y : xval) : xval :=
  match x, y with
  | NaN, _ | _, NaN => NaN
  | Fin a, Fin b => Fin (a + b)
  | PInf, NInf | NInf, PInf => NaN
  | PInf, _ | _, PInf => PInf
  | NInf, _ | _, NInf => NInf
  end.

Definition xsub (x y : xval) : xval := xadd x (xopp y).

Definition xmul (x y : xval) : xval :=
  match x, y with
  | NaN, _ | _, NaN => NaN
  | Fin a, Fin b => Fin (a * b)
  | _, _ => match is_pos x, is_pos y with
            | Some s, Some s' => inf_of (eqb s s')
            | _, _ => NaN
            end
  end.

Definition xdiv (x y : xval) : xval :=
  match x, y with
  | NaN, _ | _, NaN => NaN
  | Fin a, Fin b =>
      if decide (b = 0) then
        match is_pos x with Some s => inf_of s | None => NaN end
      else Fin (a / b)
  | Fin _, _ => Fin 0
  | _, Fin _ =>
      match is_pos x, is_pos y with
      | Some s, Some s' => inf_of (eqb s s')
      | Some s, None => inf_of s
      | None, _ => NaN
      end
  | _, _ => NaN
  end.

Definition xlt (x y : xval) : bool :=
  match x, y with
  | NaN, _ | _, NaN => false
  | Fin a, Fin b => bool_decide (a < b)
  | NInf, NInf | PInf, _ | _, NInf => false
  | _, _ => true
  end.

Definition xmin (x y : xval) : xval :=
  match x, y with
  | NaN, _ | _, NaN => NaN
  | _, _ => if xlt y x then y else x
  end.

Definition xmax (x y : xval) : xval :=
  match x, y with
  | NaN, _ | _, NaN => NaN
  | _, _ => if xlt x y then y else x
  end.

#[global] Instance xval_dtype : Dtype xval := {|
  const := Fin; add := xadd; sub := xsub; mul := xmul; div := xdiv;
  minimum := xmin; maximum := xmax
|}.
End Ieee.

(** ** Outcomes of the main cell *)

(** The Python exceptions the main cell can raise: the divisions
    [Δt = T / m] and inside [np.arange], and the dictionary subscripts. *)
Inductive exn : Type :=
  | ZeroDivisionError
  | KeyError (key : Qc).

#[global] Instance exn_eq_dec : EqDecision exn.
Proof. solve_decision. Defined.

(** [NotFinite]: a tensor has received a NaN.  No exception is raised and
    the notebook computes on; what it computes from there is not
    modelled. *)
Inductive outcome (A : Type) : Type :=
  | Returned (a : A)
  | Raised (e : exn)
  | NotFinite.
Arguments Returned {A} a.
Arguments Raised {A} e.
Arguments NotFinite {A}.

#[global] Instance outcome_eq_dec {A : Type} `{EqDecision A} : EqDecision (outcome A).
Proof. solve_decision. Defined.

#[export] Instance outcome_ret : MRet outcome := λ A a, Returned a.
#[export] Instance outcome_bind : MBind outcome := λ A B f o,
  match o with
  | Returned a => f a
  | Raised e => Raised e
  | NotFinite => NotFinite
  end.

(** [d[k]] *)
Definition getitem (d : gmap Qc vec) (k : Qc) : outcome vec :=
  match d !! k with
  | Some v => Returned v
  | None => Raised (KeyError k)
  end.

(** [for b in l: a = body(a, b)] *)
Fixpoint for_each {A B : Type} (l : list B) (body : A → B → outcome A) (a : A) : outcome A :=
  match l with
  | [] => Returned a
  | b :: l' => a' ← body a b; for_each l' body a'
  end.

(** [[f(t) for t in l]] *)
Fixpoint comprehension {K B : Type} (l : list K) (f : K → outcome B) : outcome (list B) :=
  match l with
  | [] => Returned []
  | t :: l' => y ← f t; ys ← comprehension l' f; Returned (y :: ys)
  end.

(** [{t: f(t) for t in l}] *)
Definition dict_comprehension (l : list Qc) (f : Qc → outcome vec) : outcome (gmap Qc vec) :=
  for_each l (λ d t, y ← f t; Returned (<[t := y]> d)) ∅.

(** What a run has returned or raised, if it has. *)
Definition returned {A : Type} (o : outcome A) : option A :=
  match o with
  | Returned a => Some a
  | _ => None
  end.
Definition raised {A : Type} (o : outcome A) : option exn :=
  match o with
  | Raised e => Some e
  | _ => None
  end.

(** ** The floats of the keys

    The times that key the dictionaries are Python and NumPy floats
    (binary64), and whether a subscript finds its key depends on their
    rounding.  A float is modelled by the rational it is, and every
    operation on times rounds its exact result with [fl]. *)

(** Rounding to the nearest integer, halves to the even one. *)
Definition rint (q : Qc) : Z :=
  let f := Qfloor q in
  let d := q - Qc_of_Z f in
  if decide (d < 1 / 2) then f
  else if decide (1 / 2 < d) then (f + 1)%Z
  else if Z.even f then f else (f + 1)%Z.

Definition pow2 (e : Z) : Qc :=
  if decide (0 ≤ e)%Z then Qc_of_Z (2 ^ e) else / Qc_of_Z (2 ^ (- e)).

(** The exponent [e] with [2 ^ e ≤ x < 2 ^ (e + 1)], for [0 < x]. *)
Definition ilog2 (x : Qc) : Z :=
  let e := (Z.log2 (Qnum x) - Z.log2 (Zpos (Qden x)))%Z in
  if decide (pow2 e ≤ x) then e else (e - 1)%Z.

(** The binary64 float nearest to [x], halves to the even significand
    of 53 bits.  The exponent is not bounded: the times of a run
    neither overflow nor reach the subnormal numbers. *)
Definition fl (x : Qc) : Qc :=
  if decide (x = 0) then 0
  else
    let ulp := pow2 (ilog2 (if decide (x < 0) then - x else x) - 52) in
    Qc_of_Z (rint (x / ulp)) * ulp.

(** [T / m] on Python numbers *)
Definition true_div (T : Qc) (m : nat) : outcome Qc :=
  if decide (m = 0%nat) then Raised ZeroDivisionError
  else Returned (fl (T / Qc_of_Z (Z.of_nat m))).

Definition million : Qc := Qc_of_Z 1000000.

(** [np.round(x, 6)]: NumPy multiplies by [10 ** 6], rounds to the
    nearest integer and divides by [10 ** 6]. *)
Definition np_round6 (x : Qc) : Qc := fl (Qc_of_Z (rint (fl (x * million))) / million).

(** [np.arange(start, stop, step)] on floats: [ceil((stop - start) / step)]
    values, of which NumPy stores [start] and [start + step] and fills
    the others as [start + i * delta] with
    [delta = (start + step) - start]. *)
Definition np_arange (start stop step : Qc) : outcome (list Qc) :=
  if decide (step = 0) then Raised ZeroDivisionError
  else
    let len := Z.to_nat (Qceiling (fl (fl (stop - start) / step))) in
    let next := fl (start + step) in
    let delta := fl (next - start) in
    Returned ((λ i, match i with
                    | 0%nat => start
                    | 1%nat => next
                    | _ => fl (start + fl (Qc_of_Z (Z.of_nat i) * delta))
                    end) <$> seq 0 len).

(** A dictionary that is read through [values()]: its items in
    insertion order; an assignment to a key it has keeps the place of
    the key. *)
Fixpoint setitem (d : list (Qc * vec)) (k : Qc) (v : vec) : list (Qc * vec) :=
  match d with
  | [] => [(k, v)]
  | (k', v') :: d' => if decide (k' = k) then (k, v) :: d' else (k', v') :: setitem d' k v
  end.

(** [list(d.values())] for [d = {t: f(t) for t in l}] *)
Definition comprehension_values (l : list Qc) (f : Qc → outcome vec) : outcome (list vec) :=
  d ← for_each l (λ d t, y ← f t; Returned (setitem d t y)) [];
  Returned ((d : list (Qc * vec)).*2).

(** [tf.reduce_mean]; of an empty tensor it is NaN. *)
Definition reduce_mean (x : vec) : outcome Qc :=
  if decide (x = []) then NotFinite
  else Returned (reduce_sum x / Qc_of_Z (Z.of_nat (length x))).

(** The finite values of a tensor of floats, if all of them are. *)
Definition finite_values (x : list Ieee.xval) : outcome vec :=
  comprehension x (λ y, match y with Ieee.Fin q => Returned q | _ => NotFinite end).

(** [scale(x)] on a tensor of finite floats.  Of the empty tensor
    [tf.reduce_min] and [tf.reduce_max] are infinite and the offset [b]
    is NaN. *)
Definition scale_floats (x : vec) : outcome vec :=
  if decide (x = []) then NotFinite
  else finite_values (scale (Ieee.Fin <$> x)).

(** ** The pricing run *)

Record ModelParameters : Type := {
  Spot : Qc;
  σ : Qc;
  K : Qc;
  r : Qc;
  T : Qc;
  order : nat;
  n : nat;
  m : nat
}.

(** Every tensor the main cell builds. *)
Record graph : Type := {
  g_Δt : Qc;
  g_t_span : list Qc;
  g_S : gmap Qc vec;
  g_discount : Qc;
  g_cashflow : gmap Qc vec;
  g_value : gmap Qc vec;
  g_continuation_value : gmap Qc vec;
  g_payoff_dict : list vec;
  g_payoff_stacked : matrix;
  g_payoff : matrix;
  g_discounted_payoff : list vec;
  g_price : Qc
}.

Section LSMC.
(** [tf.exp], [np.sqrt] *)
Variable exp : Qc → Qc.
Variable sqrt : Qc → Qc.
(** [tf.linalg.lstsq(X, rhs, l2_regularizer)] for a one-column
    right-hand side: the column [rhs] in, the column [β] out. *)
Variable lstsq : matrix → vec → Qc → vec.
(** One realization of [tf.random_normal]: the draw of path [j] in the
    [i]-th call of [advance]. *)
Variable random_normal : nat → nat → Qc.

(** <<
    def ridge_regression(X, Y, λ=100):
        β = tf.linalg.lstsq(X, tf.reshape(Y, [-1, 1]), l2_regularizer=100)
        return tf.squeeze(X @ β)
    >> *)
Definition ridge_regression (X : matrix) (Y : vec) (l2 : Qc) : vec :=
  let β := lstsq X Y (Qc_of_Z 100) in
  matvec X β.

(** [ridge_regression(X, Y)], the penalty left to its default. *)
Definition ridge_regression_default (X : matrix) (Y : vec) : vec :=
  ridge_regression X Y (Qc_of_Z 100).


Section Run.
Variable p : ModelParameters.

(** [np.sqrt(Δt)]; of a negative number it is NaN. *)
Definition np_sqrt (x : Qc) : outcome Qc :=
  if decide (x < 0) then NotFinite else Returned (sqrt x).

(** [S + r * S * Δt + σ * S * dB] with [dB = root * draws] *)
Definition advance_values (root Δt : Qc) (draws S : vec) : vec :=
  let dB := smul root draws in
  vadd (vadd S (muls (smul (r p) S) Δt)) (vmul (smul (σ p) S) dB).

(** <<
    def advance(S):
        dB = np.sqrt(Δt) * tf.random_normal(shape=[n])
        out = S + r * S * Δt + σ * S * dB
        return out
    >>
    [call] numbers the calls: each one draws afresh. *)
Definition advance (Δt : Qc) (call : nat) (S : vec) : outcome vec :=
  root ← np_sqrt Δt;
  Returned (advance_values root Δt (random_normal call <$> seq 0 (n p)) S).

(** [np.round(np.arange(Δt, T + Δt, Δt), 6)] *)
Definition t_span (Δt : Qc) : outcome (list Qc) :=
  ts ← np_arange Δt (fl (T p + Δt)) Δt;
  Returned (np_round6 <$> (ts : list Qc)).

(** [range(m)] *)
Definition range_m : list nat := seq 0 (m p).

(** <<
    S = {0.: Spot * tf.ones(n)}
    for t in t_span:
        t_previous = np.round(t - Δt, 6)
        S[t] = advance(S[t_previous])
    >>
    The loop also counts the calls of [advance]. *)
Definition simulate_body (Δt : Qc) (st : gmap Qc vec * nat) (t : Qc)
    : outcome (gmap Qc vec * nat) :=
  let t_previous := np_round6 (fl (t - Δt)) in
  S_previous ← getitem st.1 t_previous;
  out ← advance Δt (st.2 + 1) S_previous;
  Returned (<[t := out]> st.1, (st.2 + 1)%nat).

Definition simulate (Δt : Qc) (t_span : list Qc) : outcome (gmap Qc vec) :=
  st ← for_each t_span (simulate_body Δt) ({[ 0 := smul (Spot p) (ones (n p)) ]}, 0%nat);
  Returned st.1.

(** The body of [for t in t_span[::-1][1:]]:
    <<
    t_next = np.round(t + Δt, 6)
    basis = chebyshev_basis(scale(S[t]), order)
    continuation_value[t] = ridge_regression(basis, value[t_next])
    value[t] = discount * tf.where(cashflow[t] > continuation_value[t],
                                   cashflow[t],
                                   value[t_next])
    >> *)
Definition recursion_body (Δt : Qc) (S cashflow : gmap Qc vec) (discount : Qc)
    (st : gmap Qc vec * gmap Qc vec) (t : Qc)
    : outcome (gmap Qc vec * gmap Qc vec) :=
  let '(value, continuation_value) := st in
  let t_next := np_round6 (fl (t + Δt)) in
  S_t ← getitem S t;
  scaled ← scale_floats S_t;
  let basis := chebyshev_basis scaled (order p) in
  value_next ← getitem value t_next;
  let continuation_t := ridge_regression_default basis value_next in
  let continuation_value := <[t := continuation_t]> continuation_value in
  cashflow_t ← getitem cashflow t;
  continuation_t ← getitem continuation_value t;
  value_next ← getitem value t_next;
  Returned (<[t := smul discount
                   (tf_where (greater cashflow_t continuation_t) cashflow_t value_next)]> value,
            continuation_value).

(** <<
    tf.where(continuation_value[t] > cashflow[t], tf.zeros(n), cashflow[t])
    >> *)
Definition payoff_entry (cashflow continuation_value : gmap Qc vec) (t : Qc) : outcome vec :=
  continuation_t ← getitem continuation_value t;
  cashflow_t ← getitem cashflow t;
  Returned (tf_where (greater continuation_t cashflow_t) (zeros (n p)) cashflow_t).

(** The main cell, from [Δt = T / m] to [price]:
    <<
    t_span = np.round(np.arange(Δt, T + Δt, Δt), 6)
    discount = tf.exp(-r * Δt)
    cashflow = {t: tf.maximum(0., K - S[t]) for t in t_span}
    value = {T: cashflow[T] * discount}
    continuation_value = {T: tf.zeros(n)}
    for t in t_span[::-1][1:]: ...
    payoff = {t: tf.where(...) for t in t_span}
    payoff = tf.stack(list(payoff.values()), axis=1)
    payoff = first_one(payoff)
    discounted_payoff = {i: payoff[:, i] * tf.exp(-r * i * Δt) for i in range(m)}
    price = tf.reduce_mean(tf.add_n(list(discounted_payoff.values())))
    >>
    The dictionary [payoff] is only read through [values()]; the keys
    of [discounted_payoff] are the distinct integers of [range(m)], so
    it is the list of its values. *)
Definition lsmc : outcome graph :=
  Δt ← true_div (T p) (m p);
  t_span ← t_span Δt;
  S ← simulate Δt t_span;
  let discount := exp (- r p * Δt) in
  cashflow ← dict_comprehension t_span
               (λ t, S_t ← getitem S t; Returned (put_payoff (K p) S_t));
  cashflow_T ← getitem cashflow (T p);
  let value := {[ T p := muls cashflow_T discount ]} in
  let continuation_value := {[ T p := zeros (n p) ]} in
  '(value, continuation_value) ←
     for_each (tail (rev t_span)) (recursion_body Δt S cashflow discount)
              (value, continuation_value);
  payoff_dict ← comprehension_values t_span (payoff_entry cashflow continuation_value);
  let payoff_stacked := stack_axis1 payoff_dict in
  let payoff := first_one payoff_stacked in
  let discounted_payoff :=
    (λ i, muls (column i payoff) (exp (- r p * Qc_of_Z (Z.of_nat i) * Δt))) <$> range_m in
  price ← reduce_mean (add_n discounted_payoff);
  Returned {| g_Δt := Δt; g_t_span := t_span; g_S := S; g_discount := discount;
              g_cashflow := cashflow;
              g_value := value; g_continuation_value := continuation_value;
              g_payoff_dict := payoff_dict; g_payoff_stacked := payoff_stacked;
              g_payoff := payoff; g_discounted_payoff := discounted_payoff;
              g_price := price |}.
End Run.
End LSMC.

(** ** Reference instances of the library primitives

    Closed stand-ins for the parameters of the development, to run the
    pricing on concrete inputs. *)
Module Reference.
(** [e^x] to second order; positive everywhere. *)
Definition exp (x : Qc) : Qc := 1 + x + x * x / 2.

(** Three Newton steps for the square root, from 1. *)
Definition sqrt (x : Qc) : Qc :=
  let step s := (s + x / s) / 2 in
  step (step (step 1)).

(** [tf.linalg.lstsq(X, rhs, l2_regularizer=l2)] after TensorFlow's
    documentation: the solution of the normal equations
    [(Xᵀ X + l2 I) β = Xᵀ rhs], here by Gauss-Jordan elimination
    without row exchanges (the pivots are non-zero for [l2 > 0]). *)
Definition normal_matrix (X : matrix) (l2 : Qc) : matrix :=
  let k := n_columns X in
  (λ i, (λ j, dot (column i X) (column j X) + (if decide (i = j) then l2 else 0))
          <$> seq 0 k) <$> seq 0 k.

Definition normal_rhs (X : matrix) (Y : vec) : vec :=
  (λ i, dot (column i X) Y) <$> seq 0 (n_columns X).

Definition eliminate (M : matrix) (c : nat) : matrix :=
  let pivot_row := nth c M [] in
  let pivot := nth c pivot_row 0 in
  if decide (pivot = 0) then M
  else
    let pivot_row := (λ a, a / pivot) <$> pivot_row in
    imap (λ i row, if decide (i = c) then pivot_row
                   else vsub row (smul (nth c row 0) pivot_row)) M.

Definition lstsq (X : matrix) (Y : vec) (l2 : Qc) : vec :=
  let A := normal_matrix X l2 in
  let M := zip_with (λ row b, row ++ [b]) A (normal_rhs X Y) in
  let M := foldl eliminate M (seq 0 (length A)) in
  (λ row, List.last row 0) <$> M.

(** A fixed table of draws. *)
Definition random_normal (call j : nat) : Qc :=
  qc (Z.of_nat ((call * 7 + j * 5) mod 9) - 4) 3.
End Reference.

(** * Properties *)

(** ** Lists and tensors *)

Lemma nth_lookup_Qc (l : vec) (i : nat) (a : Qc) : l !! i = Some a → nth i l 0 = a.
Proof. intros Hl. by rewrite (nth_lookup_Some _ _ _ _ Hl). Qed.

Lemma length_stack_axis1 (cols : list vec) :
  length (stack_axis1 cols) = length (hd [] cols).
Proof. unfold stack_axis1. by rewrite length_fmap, length_seq. Qed.

Lemma lookup_stack_axis1 (cols : list vec) (i : nat) :
  (i < length (hd [] cols))%nat →
  stack_axis1 cols !! i = Some ((λ c, nth i c 0) <$> cols).
Proof.
  intros Hi. unfold stack_axis1.
  by rewrite list_lookup_fmap, lookup_seq_lt.
Qed.

Lemma stack_axis1_row_length (cols : list vec) (row : vec) :
  row ∈ stack_axis1 cols → length row = length cols.
Proof.
  unfold stack_axis1. intros (i & -> & _)%list_elem_of_fmap.
  by rewrite length_fmap.
Qed.

(** Stacking the columns [f j <$> x] gives the rows [f _ xi]. *)
Lemma stack_axis1_fmap (f : nat → Qc → Qc) (x : vec) (js : list nat) :
  js ≠ [] →
  stack_axis1 ((λ j, f j <$> x) <$> js) = (λ xi, (λ j, f j xi) <$> js) <$> x.
Proof.
  intros Hjs.
  assert (Hlen : length (hd [] ((λ j, f j <$> x) <$> js)) = length x).
  { destruct js; [done|]. simpl. by rewrite length_fmap. }
  apply list_eq. intros i.
  destruct (x !! i) as [xi|] eqn:Hxi.
  - rewrite lookup_stack_axis1 by (rewrite Hlen; by eapply lookup_lt_Some).
    rewrite list_lookup_fmap, Hxi. simpl. f_equal.
    rewrite <-list_fmap_compose. apply list_fmap_ext. intros _ j _. simpl.
    apply nth_lookup_Qc. by rewrite list_lookup_fmap, Hxi.
  - rewrite list_lookup_fmap, Hxi. simpl.
    apply lookup_ge_None. rewrite length_stack_axis1, Hlen.
    by apply lookup_ge_None.
Qed.

(** ** Chebyshev basis *)

(** The recurrence in the specification's words:
    [T_0(x) = 1], [T_1(x) = x], [T_k(x) = 2x T_{k-1}(x) - T_{k-2}(x)]. *)
Fixpoint chebyshev_T (k : nat) (x : Qc) : Qc :=
  match k with
  | O => 1
  | S k' =>
      match k' with
      | O => x
      | S k'' => 2 * x * chebyshev_T k' x - chebyshev_T k'' x
      end
  end.

Lemma chebyshev_T_step (k : nat) (x : Qc) :
  chebyshev_T (S (S k)) x = 2 * x * chebyshev_T (S k) x - chebyshev_T k x.
Proof. reflexivity. Qed.

Lemma chebyshev_step_column (x : vec) (s : nat) :
  vsub (vmul (smul 2 x) (chebyshev_T (S s) <$> x)) (chebyshev_T s <$> x)
  = chebyshev_T (S (S s)) <$> x.
Proof.
  unfold vsub, vmul, smul. apply list_eq. intros i.
  rewrite !lookup_zip_with, !list_lookup_fmap.
  destruct (x !! i) as [xi|]; reflexivity.
Qed.

Lemma chebyshev_loop (x : vec) (d s : nat) :
  foldl (chebyshev_step x) ((λ j, chebyshev_T j <$> x) <$> seq 0 (2 + s)) (seq (2 + s) d)
  = (λ j, chebyshev_T j <$> x) <$> seq 0 (2 + s + d).
Proof.
  revert s. induction d as [|d IH]; intros s.
  - simpl. by rewrite Nat.add_0_r.
  - cbn [seq foldl].
    assert (Hstep : chebyshev_step x ((λ j, chebyshev_T j <$> x) <$> seq 0 (2 + s)) (2 + s)
                    = (λ j, chebyshev_T j <$> x) <$> seq 0 (2 + S s)).
    { unfold chebyshev_step.
      assert (Hnth : ∀ j, (j < 2 + s)%nat →
                nth j ((λ j, chebyshev_T j <$> x) <$> seq 0 (2 + s)) [] = chebyshev_T j <$> x).
      { intros j Hj. apply nth_lookup_Some.
        rewrite (list_lookup_fmap (λ j, chebyshev_T j <$> x)), lookup_seq_lt by lia. done. }
      rewrite !Hnth by lia.
      replace (2 + s - 1)%nat with (S s) by lia.
      replace (2 + s - 2)%nat with s by lia.
      rewrite chebyshev_step_column.
      replace (seq 0 (2 + S s)) with (seq 0 (2 + s) ++ [(2 + s)%nat]).
      { by rewrite fmap_app. }
      replace (2 + S s)%nat with ((2 + s) + 1)%nat by lia.
      by rewrite (seq_app (2 + s) 1 0). }
    rewrite Hstep. change (S (2 + s)) with (2 + S s)%nat.
    rewrite IH. f_equal. f_equal. lia.
Qed.

Lemma chebyshev_columns_spec (x : vec) (k : nat) :
  chebyshev_columns x k = (λ j, chebyshev_T j <$> x) <$> seq 0 (2 + (k - 2)).
Proof.
  unfold chebyshev_columns.
  assert (Hinit : [ones_like x; x] = (λ j, chebyshev_T j <$> x) <$> seq 0 (2 + 0)).
  { simpl. unfold ones_like. f_equal. f_equal. by rewrite list_fmap_id. }
  rewrite Hinit. change (seq 2 (k - 2)) with (seq (2 + 0) (k - 2)).
  rewrite chebyshev_loop. f_equal.
Qed.

(** Whatever [k] is, the basis has the [max k 2] columns [T_0 .. ]. *)
Lemma chebyshev_basis_columns (x : vec) (k : nat) :
  chebyshev_basis x k = (λ xi, (λ j, chebyshev_T j xi) <$> seq 0 (2 + (k - 2))) <$> x.
Proof.
  unfold chebyshev_basis. rewrite chebyshev_columns_spec.
  by apply stack_axis1_fmap.
Qed.

Lemma length_chebyshev_basis (x : vec) (k : nat) :
  length (chebyshev_basis x k) = length x.
Proof. by rewrite chebyshev_basis_columns, length_fmap. Qed.

(** C6 at [k = 1]: the basis of order 1 has the two columns [T_0], [T_1],
    not the single column [T_0]. *)
Lemma chebyshev_basis_order_1 :
  chebyshev_basis [qc 1 2] 1 = [[1; qc 1 2]]
  ∧ chebyshev_basis [qc 1 2] 1 ≠ (λ xi, (λ j, chebyshev_T j xi) <$> seq 0 1) <$> [qc 1 2].
Proof. split; compute_done. Qed.

(** C6, as the code has it: for every vector [x] of [n] values and every order [k],
    [chebyshev_basis x k] is the matrix of [n] rows whose columns are
    [T_0(x), ..., T_{c-1}(x)] for [c = max k 2] -- the [k] columns
    [T_0 .. T_{k-1}] as soon as [k >= 2]; and for [k >= 3] and [x = 1/2]
    the first three column values are 1, 1/2 and -1/2. *)
Theorem chebyshev_basis_recurrence (x : vec) (k : nat) :
  chebyshev_basis x k = (λ xi, (λ j, chebyshev_T j xi) <$> seq 0 (Nat.max k 2)) <$> x
  ∧ length (chebyshev_basis x k) = length x
  ∧ (∀ row, row ∈ chebyshev_basis x k → length row = Nat.max k 2)
  ∧ ((2 ≤ k)%nat → ∀ row, row ∈ chebyshev_basis x k → length row = k)
  ∧ ((3 ≤ k)%nat → take 3 <$> chebyshev_basis [qc 1 2] k = [[1; qc 1 2; - qc 1 2]]).
Proof.
  assert (Hmax : ∀ k', (2 + (k' - 2))%nat = Nat.max k' 2) by lia.
  assert (Hcols : ∀ y, chebyshev_basis y k
            = (λ xi, (λ j, chebyshev_T j xi) <$> seq 0 (Nat.max k 2)) <$> y).
  { intros y. by rewrite chebyshev_basis_columns, Hmax. }
  assert (Hrow : ∀ row, row ∈ chebyshev_basis x k → length row = Nat.max k 2).
  { intros row. rewrite Hcols. intros (xi & -> & _)%list_elem_of_fmap.
    by rewrite length_fmap, length_seq. }
  split; [apply Hcols|]. split; [by rewrite Hcols, length_fmap|].
  split; [exact Hrow|]. split.
  - intros Hk row Hin. rewrite (Hrow row Hin). lia.
  - intros Hk. rewrite Hcols.
    replace (Nat.max k 2) with (3 + (k - 3))%nat by lia.
    rewrite seq_app. cbn [fmap list_fmap]. rewrite fmap_app.
    rewrite take_app_length' by (by rewrite length_fmap, length_seq).
    compute_done.
Qed.

Lemma chebyshev_basis_recurrence_witness :
  (3 ≤ 25)%nat
  ∧ take 3 <$> chebyshev_basis [qc 1 2] 25 = [[1; qc 1 2; - qc 1 2]].
Proof.
  split; [lia|].
  apply (chebyshev_basis_recurrence [qc 1 2] 25). lia.
Defined.

(** ** Payoff extraction *)

(** The extraction in the specification's words: a scan along the row
    that keeps the first strictly positive entry and zeroes the rest. *)
Fixpoint keep_first_positive (row : vec) : vec :=
  match row with
  | [] => []
  | a :: l => if decide (0 < a) then a :: replicate (length l) 0
              else 0 :: keep_first_positive l
  end.

(** A matrix: every row has the [n_columns] of the first. *)
Definition rectangular (x : matrix) : Prop :=
  ∀ row, row ∈ x → length row = n_columns x.

(** [original * (lag * x)] when the running product enters as [acc]. *)
Definition masked_from (acc : Qc) (c : nat) (original : vec) : vec :=
  let x := cast_positive <$> original in
  let x_not := (λ a, 1 - a) <$> x in
  vmul original
    (vmul (acc :: take c ((λ a, Qcmin a 1) <$> cumprod_from acc x_not)) x).

Lemma first_one_row_masked (c : nat) (row : vec) :
  first_one_row c row = masked_from 1 (c - 1) row.
Proof. reflexivity. Qed.

Lemma Qcmin_bit (a : Qc) : a = 0 ∨ a = 1 → Qcmin a 1 = a.
Proof. intros [-> | ->]; compute_done. Qed.

Lemma masked_from_cons (acc a : Qc) (c : nat) (l : vec) :
  acc = 0 ∨ acc = 1 →
  masked_from acc (S c) (a :: l)
  = a * (acc * cast_positive a) :: masked_from (acc * (1 - cast_positive a)) c l.
Proof.
  intros Hacc. unfold masked_from, vmul. cbn [fmap list_fmap cumprod_from take zip_with].
  rewrite Qcmin_bit; [done|].
  unfold cast_positive. destruct Hacc as [-> | ->]; case_decide; [left|left|left|right]; ring.
Qed.

Lemma masked_from_0 (c : nat) (row : vec) :
  (length row ≤ S c)%nat → masked_from 0 c row = replicate (length row) 0.
Proof.
  revert c. induction row as [|a l IH]; intros c Hc; [done|].
  destruct l as [|a' l].
  - unfold masked_from, vmul. simpl. f_equal. ring.
  - destruct c as [|c]; [simpl in Hc; lia|].
    rewrite masked_from_cons by auto.
    replace (0 * (1 - cast_positive a)) with (Q2Qc 0) by ring.
    rewrite IH by (simpl in *; lia).
    cbn [length replicate]. f_equal. ring.
Qed.

Lemma masked_from_1 (c : nat) (row : vec) :
  (length row ≤ S c)%nat → masked_from 1 c row = keep_first_positive row.
Proof.
  revert c. induction row as [|a l IH]; intros c Hc; [done|].
  destruct l as [|a' l].
  - unfold masked_from, vmul, cast_positive. simpl.
    case_decide; f_equal; ring.
  - destruct c as [|c]; [simpl in Hc; lia|].
    rewrite masked_from_cons by auto.
    cbn [keep_first_positive]. unfold cast_positive at 1 2.
    case_decide.
    + replace (1 * (1 - 1)) with (Q2Qc 0) by ring.
      rewrite masked_from_0 by (simpl in *; lia). f_equal. ring.
    + replace (1 * (1 - 0)) with (Q2Qc 1) by ring.
      rewrite IH by (simpl in *; lia). f_equal. ring.
Qed.

(** On a matrix the cumulative-product masking is the scan. *)
Lemma first_one_scan (x : matrix) :
  rectangular x → first_one x = keep_first_positive <$> x.
Proof.
  intros Hrect. unfold first_one. apply list_fmap_ext.
  intros i row Hrow. rewrite first_one_row_masked.
  apply masked_from_1. rewrite (Hrect row) by (by eapply list_elem_of_lookup_2). lia.
Qed.

Lemma keep_first_positive_length (row : vec) :
  length (keep_first_positive row) = length row.
Proof.
  induction row as [|a l IH]; [done|]. simpl.
  case_decide; simpl; [by rewrite length_replicate | by rewrite IH].
Qed.

Lemma keep_first_positive_lookup (row : vec) (j : nat) (a : Qc) :
  row !! j = Some a →
  keep_first_positive row !! j
  = Some (if decide (0 < a ∧ Forall (λ b, ¬ 0 < b) (take j row)) then a else 0).
Proof.
  revert j. induction row as [|b l IH]; intros j Hj; [done|].
  destruct j as [|j]; simpl in Hj.
  - injection Hj as ->. cbn [keep_first_positive take].
    destruct (decide (0 < a)) as [Ha|Ha].
    + rewrite decide_True; [done|]. split; [assumption | constructor].
    + rewrite decide_False; [done|]. intros [Ha' _]. by apply Ha.
  - cbn [keep_first_positive take].
    destruct (decide (0 < b)) as [Hb|Hb].
    + rewrite decide_False.
      * simpl. apply lookup_replicate_2. by eapply lookup_lt_Some.
      * intros [_ Hall]. apply Forall_cons in Hall as [Hb' _]. by apply Hb'.
    + simpl. rewrite (IH j Hj).
      destruct (decide (0 < a ∧ Forall (λ b0, ¬ 0 < b0) (take j l))) as [[H1 H2]|Hn].
      * rewrite decide_True; [done|]. split; [assumption|]. by apply Forall_cons.
      * rewrite decide_False; [done|].
        intros [H1 [_ H2]%Forall_cons]. apply Hn. by split.
Qed.

Lemma keep_first_positive_none (row : vec) :
  Forall (λ a, ¬ 0 < a) row → keep_first_positive row = replicate (length row) 0.
Proof.
  induction 1 as [|a l Ha _ IH]; [done|]. simpl.
  rewrite decide_False by done. by rewrite IH.
Qed.

Lemma keep_first_positive_zeros (k : nat) :
  keep_first_positive (replicate k 0) = replicate k 0.
Proof.
  rewrite keep_first_positive_none; [by rewrite length_replicate|].
  apply Forall_replicate. compute_done.
Qed.

Lemma keep_first_positive_idemp (row : vec) :
  keep_first_positive (keep_first_positive row) = keep_first_positive row.
Proof.
  induction row as [|a l IH]; [done|]. cbn [keep_first_positive].
  destruct (decide (0 < a)) as [Ha|Ha]; cbn [keep_first_positive].
  - rewrite decide_True by done. by rewrite length_replicate.
  - rewrite decide_False by compute_done. by rewrite IH.
Qed.


(** The first kept entry is the only one that can be non-zero. *)
Lemma keep_first_positive_unique (row : vec) (j1 j2 : nat) (b1 b2 : Qc) :
  keep_first_positive row !! j1 = Some b1 →
  keep_first_positive row !! j2 = Some b2 →
  b1 ≠ 0 → b2 ≠ 0 → j1 = j2.
Proof.
  revert j1 j2. induction row as [|a l IH]; intros j1 j2; [done|].
  cbn [keep_first_positive].
  destruct (decide (0 < a)) as [Ha|Ha]; intros H1 H2 Hb1 Hb2.
  - destruct j1 as [|j1]; [|apply lookup_replicate_1 in H1 as [-> _]; done].
    destruct j2 as [|j2]; [done|apply lookup_replicate_1 in H2 as [-> _]; done].
  - destruct j1 as [|j1]; [simpl in H1; injection H1 as <-; done|].
    destruct j2 as [|j2]; [simpl in H2; injection H2 as <-; done|].
    f_equal. by eapply IH.
Qed.

Lemma first_one_rectangular (x : matrix) :
  rectangular x → rectangular (first_one x) ∧ n_columns (first_one x) = n_columns x.
Proof.
  intros Hrect. rewrite (first_one_scan x Hrect).
  assert (Hn : n_columns (keep_first_positive <$> x) = n_columns x).
  { unfold n_columns. destruct x; [done|]. simpl. apply keep_first_positive_length. }
  split; [|done].
  intros row (row0 & -> & Hin)%list_elem_of_fmap.
  rewrite keep_first_positive_length, Hn. by apply Hrect.
Qed.

(** C3: for every input matrix, [first_one] returns a matrix of the same
    shape in which each row keeps, at its original value, the
    chronologically first strictly positive entry and is zero everywhere
    else: at most one entry per row is non-zero, a row without a positive
    entry comes out all zero, and extracting twice is extracting once. *)
Theorem first_one_extracts (x : matrix) :
  rectangular x →
  length (first_one x) = length x
  ∧ (∀ i row, x !! i = Some row →
       ∃ out, first_one x !! i = Some out
         ∧ length out = length row
         ∧ (∀ j a, row !! j = Some a →
              out !! j
              = Some (if decide (0 < a ∧ Forall (λ b, ¬ 0 < b) (take j row)) then a else 0))
         ∧ (∀ j1 j2 b1 b2, out !! j1 = Some b1 → out !! j2 = Some b2 →
              b1 ≠ 0 → b2 ≠ 0 → j1 = j2)
         ∧ (Forall (λ a, ¬ 0 < a) row → out = replicate (length row) 0))
  ∧ first_one (first_one x) = first_one x.
Proof.
  intros Hrect.
  destruct (first_one_rectangular x Hrect) as [Hrect' _].
  rewrite (first_one_scan (first_one x) Hrect').
  rewrite !(first_one_scan x Hrect).
  split; [by rewrite length_fmap|]. split.
  - intros i row Hrow. exists (keep_first_positive row).
    split; [by rewrite list_lookup_fmap, Hrow|].
    split; [apply keep_first_positive_length|].
    split; [apply keep_first_positive_lookup|].
    split; [apply keep_first_positive_unique|apply keep_first_positive_none].
  - rewrite <-list_fmap_compose. apply list_fmap_ext.
    intros _ row _. apply keep_first_positive_idemp.
Qed.

(** The specification's test row: positive entries at columns 2 and 5. *)
Definition payoff_example : matrix :=
  [ [0; 0; Qc_of_Z 3; 0; 0; Qc_of_Z 7; 0];
    [0; 0; 0; 0; 0; 0; 0] ].

Lemma first_one_extracts_witness :
  rectangular payoff_example
  ∧ first_one payoff_example
    = [ [0; 0; Qc_of_Z 3; 0; 0; 0; 0]; [0; 0; 0; 0; 0; 0; 0] ]
  ∧ first_one (first_one payoff_example) = first_one payoff_example.
Proof.
  assert (Hrect : rectangular payoff_example).
  { intros row Hin. unfold payoff_example in Hin.
    repeat (apply elem_of_cons in Hin as [-> | Hin]; [reflexivity|]).
    by apply elem_of_nil in Hin. }
  split; [exact Hrect|]. split; [compute_done|].
  apply (first_one_extracts payoff_example Hrect).
Defined.

(** ** Scaling *)

Lemma foldl_Qcmin_le (a : Qc) (l : vec) :
  foldl Qcmin a l ≤ a ∧ Forall (λ b, foldl Qcmin a l ≤ b) l.
Proof.
  revert a. induction l as [|b l IH]; intros a; simpl.
  - split; [apply Qcle_refl | constructor].
  - destruct (IH (Qcmin a b)) as [H1 H2].
    assert (Hab : Qcmin a b ≤ a ∧ Qcmin a b ≤ b).
    { unfold Qcmin. case_decide as Hd.
      - split; [by apply Qclt_le_weak | apply Qcle_refl].
      - split; [apply Qcle_refl | by apply Qcnot_lt_le]. }
    split; [eapply Qcle_trans; [apply H1 | apply Hab]|].
    constructor; [eapply Qcle_trans; [apply H1 | apply Hab] | done].
Qed.

Lemma foldl_Qcmax_ge (a : Qc) (l : vec) :
  a ≤ foldl Qcmax a l ∧ Forall (λ b, b ≤ foldl Qcmax a l) l.
Proof.
  revert a. induction l as [|b l IH]; intros a; simpl.
  - split; [apply Qcle_refl | constructor].
  - destruct (IH (Qcmax a b)) as [H1 H2].
    assert (Hab : a ≤ Qcmax a b ∧ b ≤ Qcmax a b).
    { unfold Qcmax. case_decide as Hd.
      - split; [by apply Qclt_le_weak | apply Qcle_refl].
      - split; [apply Qcle_refl | by apply Qcnot_lt_le]. }
    split; [eapply Qcle_trans; [apply Hab | apply H1]|].
    constructor; [eapply Qcle_trans; [apply Hab | apply H1] | done].
Qed.

Lemma reduce_min_le (x : vec) : Forall (λ b, reduce_min x ≤ b) x.
Proof.
  destruct x as [|a l]; [constructor|]. simpl.
  destruct (foldl_Qcmin_le a l). by constructor.
Qed.

Lemma reduce_max_ge (x : vec) : Forall (λ b, b ≤ reduce_max x) x.
Proof.
  destruct x as [|a l]; [constructor|]. simpl.
  destruct (foldl_Qcmax_ge a l). by constructor.
Qed.

(** Zero dispersion: every entry is the common extreme. *)
Lemma reduce_min_max_constant (x : vec) :
  reduce_min x = reduce_max x → Forall (λ b, b = reduce_max x) x.
Proof.
  intros Heq. pose proof (reduce_min_le x) as Hmin. pose proof (reduce_max_ge x) as Hmax.
  rewrite Heq in Hmin. rewrite Forall_forall in *.
  intros b Hb. apply Qcle_antisym; auto.
Qed.

Lemma reduce_min_Fin (x : vec) : reduce_min (Ieee.Fin <$> x) = Ieee.Fin (reduce_min x).
Proof.
  destruct x as [|a l]; [done|]. simpl. revert a.
  induction l as [|b l IH]; intros a; [done|]. simpl.
  rewrite <-IH. f_equal. unfold Ieee.xmin, Qcmin. simpl.
  case_bool_decide; case_decide; done.
Qed.

Lemma reduce_max_Fin (x : vec) : reduce_max (Ieee.Fin <$> x) = Ieee.Fin (reduce_max x).
Proof.
  destruct x as [|a l]; [done|]. simpl. revert a.
  induction l as [|b l IH]; intros a; [done|]. simpl.
  rewrite <-IH. f_equal. unfold Ieee.xmax, Qcmax. simpl.
  case_bool_decide; case_decide; done.
Qed.

Lemma Qcminus_diag_eq (a b : Qc) : a - b = 0 ↔ a = b.
Proof.
  split; [|intros ->; ring].
  intros Hab. replace a with ((a - b) + b) by ring. rewrite Hab. ring.
Qed.

(** Away from zero dispersion the two instances of [scale] agree: the
    floats stay finite and are the rationals. *)
Lemma scale_finite (x : vec) :
  reduce_min x ≠ reduce_max x →
  scale (Ieee.Fin <$> x) = Ieee.Fin <$> scale x.
Proof.
  intros Hne. unfold scale. rewrite reduce_min_Fin, reduce_max_Fin.
  rewrite <-!list_fmap_compose. apply list_fmap_ext. intros _ xi _. simpl.
  rewrite decide_False; [done|].
  change (reduce_max x + - reduce_min x) with (reduce_max x - reduce_min x).
  rewrite Qcminus_diag_eq. congruence.
Qed.

(** C7 at the specification's cross-section: all entries 10.0. *)
Lemma scale_constant_10 :
  scale [Ieee.Fin (Qc_of_Z 10); Ieee.Fin (Qc_of_Z 10)] = [Ieee.NaN; Ieee.NaN].
Proof. reflexivity. Qed.

(** C7, as the code has it: [scale] has no check for zero dispersion and raises no
    error.  For every cross-section of finite values with
    [min(x) = max(x)] it divides 2 by [xmax - xmin = 0] and returns a
    vector of the same length whose entries are all NaN. *)
Theorem scale_degenerate (x : vec) :
  reduce_min x = reduce_max x →
  scale (Ieee.Fin <$> x) = (λ _, Ieee.NaN) <$> x
  ∧ div (Ieee.Fin 2) (sub (reduce_max (Ieee.Fin <$> x)) (reduce_min (Ieee.Fin <$> x)))
    = Ieee.PInf.
Proof.
  intros Heq. pose proof (reduce_min_max_constant x Heq) as Hconst.
  unfold scale. rewrite reduce_min_Fin, reduce_max_Fin, <-Heq.
  assert (Ha : div (Ieee.Fin 2) (sub (Ieee.Fin (reduce_min x)) (Ieee.Fin (reduce_min x)))
               = Ieee.PInf).
  { simpl. rewrite decide_True by ring. reflexivity. }
  split; [|exact Ha]. cbv zeta.
  change (@const Ieee.xval _ 2) with (Ieee.Fin 2).
  change (@const Ieee.xval _ 1) with (Ieee.Fin 1).
  rewrite Ha.
  rewrite <-list_fmap_compose. apply list_fmap_ext. intros i xi Hxi. simpl.
  assert (Hx : xi = reduce_min x).
  { rewrite Heq. rewrite Forall_forall in Hconst. apply Hconst.
    by eapply list_elem_of_lookup_2. }
  rewrite Hx. unfold Ieee.xmul, Ieee.xsub. simpl.
  destruct (decide (0 < reduce_min x)); [reflexivity|].
  destruct (decide (reduce_min x < 0)); reflexivity.
Qed.

Lemma scale_degenerate_witness :
  reduce_min [Qc_of_Z 10; Qc_of_Z 10; Qc_of_Z 10]
  = reduce_max [Qc_of_Z 10; Qc_of_Z 10; Qc_of_Z 10]
  ∧ scale (Ieee.Fin <$> [Qc_of_Z 10; Qc_of_Z 10; Qc_of_Z 10])
    = [Ieee.NaN; Ieee.NaN; Ieee.NaN].
Proof.
  assert (H : reduce_min [Qc_of_Z 10; Qc_of_Z 10; Qc_of_Z 10]
              = reduce_max [Qc_of_Z 10; Qc_of_Z 10; Qc_of_Z 10]) by reflexivity.
  split; [exact H|].
  apply (scale_degenerate [Qc_of_Z 10; Qc_of_Z 10; Qc_of_Z 10] H).
Defined.


(** ** Loops and subscripts *)

Lemma getitem_Some (d : gmap Qc vec) (k : Qc) (v : vec) :
  d !! k = Some v → getitem d k = Returned v.
Proof. intros Hd. unfold getitem. by rewrite Hd. Qed.

Lemma getitem_None (d : gmap Qc vec) (k : Qc) :
  d !! k = None → getitem d k = Raised (KeyError k).
Proof. intros Hk. unfold getitem. by rewrite Hk. Qed.

Lemma bind_Returned {A B : Type} (a : A) (f : A → outcome B) :
  (Returned a ≫= f) = f a.
Proof. reflexivity. Qed.

(** A loop whose body returns on every element, and carries the
    invariant [I] from the elements already visited to one more,
    returns with [I] on the whole list. *)
Lemma for_each_returns {A B : Type} (I : list B → A → Prop)
    (body : A → B → outcome A) (l : list B) (a : A) :
  I [] a →
  (∀ l1 b l2 a1, l = l1 ++ b :: l2 → I l1 a1 →
     ∃ a2, body a1 b = Returned a2 ∧ I (l1 ++ [b]) a2) →
  ∃ a', for_each l body a = Returned a' ∧ I l a'.
Proof.
  intros Hinit Hstep.
  assert (Hgen : ∀ l2 l1 a1, l = l1 ++ l2 → I l1 a1 →
            ∃ a', for_each l2 body a1 = Returned a' ∧ I l a').
  { induction l2 as [|b l2 IH]; intros l1 a1 Hl Ha1.
    - exists a1. rewrite app_nil_r in Hl. by subst.
    - destruct (Hstep l1 b l2 a1 Hl Ha1) as (a2 & Hbody & Ha2).
      simpl. rewrite Hbody, bind_Returned.
      apply (IH (l1 ++ [b])); [|done]. by rewrite <-app_assoc. }
  by apply (Hgen l [] a).
Qed.

Lemma for_each_fmap {A B C : Type} (f : C → B) (l : list C)
    (body : A → B → outcome A) (a : A) :
  for_each (f <$> l) body a = for_each l (λ a' c, body a' (f c)) a.
Proof.
  revert a. induction l as [|c l IH]; intros a; [done|].
  simpl. destruct (body a (f c)) as [a'| |]; [apply IH | done | done].
Qed.

Lemma seq_split (a k : nat) (l1 l2 : list nat) (b : nat) :
  seq a k = l1 ++ b :: l2 →
  b = (a + length l1)%nat ∧ (length l1 < k)%nat ∧ l1 = seq a (length l1).
Proof.
  intros Hs.
  assert (Hlen : k = (length l1 + S (length l2))%nat).
  { pose proof (f_equal length Hs) as Hl.
    by rewrite length_seq, length_app in Hl. }
  assert (Hb : seq a k !! length l1 = Some b).
  { rewrite Hs. by rewrite list_lookup_middle. }
  apply lookup_seq in Hb as [-> _].
  split; [done|]. split; [lia|].
  rewrite Hlen, seq_app in Hs. apply app_inj_1 in Hs as [Hs _]; [done|].
  by rewrite length_seq.
Qed.

(** The backward loop visits [m - 1, m - 2, ..., 1]. *)
Lemma backward_steps (m : nat) : tail (rev (seq 1 m)) = rev (seq 1 (m - 1)).
Proof.
  destruct m as [|m]; [done|].
  replace (S m - 1)%nat with m by lia.
  by rewrite seq_S, rev_app_distr.
Qed.

Lemma backward_split (m : nat) (l1 l2 : list nat) (t : nat) :
  rev (seq 1 (m - 1)) = l1 ++ t :: l2 →
  t = (m - 1 - length l1)%nat ∧ (1 ≤ t)%nat ∧ (length l1 < m - 1)%nat.
Proof.
  intros Hr.
  assert (Hs : seq 1 (m - 1) = rev l2 ++ t :: rev l1).
  { rewrite <-(rev_involutive (seq 1 (m - 1))), Hr, rev_app_distr. simpl.
    by rewrite <-app_assoc. }
  assert (Hlen : (m - 1 = length l1 + S (length l2))%nat).
  { pose proof (f_equal length Hr) as Hl.
    by rewrite length_rev, length_seq, length_app in Hl. }
  apply seq_split in Hs as (Ht & _ & _). rewrite length_rev in Ht. lia.
Qed.


Lemma rev_fmap {A B : Type} (f : A → B) (l : list A) : rev (f <$> l) = f <$> rev l.
Proof.
  induction l as [|a l IH]; [done|].
  change (rev (f <$> l) ++ [f a] = f <$> (rev l ++ [a])).
  by rewrite IH, fmap_app.
Qed.

Lemma tail_fmap {A B : Type} (f : A → B) (l : list A) : tail (f <$> l) = f <$> tail l.
Proof. by destruct l. Qed.

(** ** Comprehensions *)

Lemma setitem_fresh (d : list (Qc * vec)) (k : Qc) (v : vec) :
  k ∉ d.*1 → setitem d k v = d ++ [(k, v)].
Proof.
  induction d as [|[k' v'] d IH]; intros Hk; [done|].
  cbn [setitem]. rewrite fmap_cons in Hk. apply not_elem_of_cons in Hk as [Hne Hk].
  rewrite decide_False by (intros ->; by apply Hne).
  cbn [app]. by rewrite IH.
Qed.

Lemma comprehension_values_returns (l : list Qc) (f : Qc → outcome vec) (g : Qc → vec) :
  NoDup l → (∀ t, t ∈ l → f t = Returned (g t)) →
  comprehension_values l f = Returned (g <$> l).
Proof.
  intros Hnd Hf. unfold comprehension_values.
  destruct (for_each_returns
              (λ visited (d : list (Qc * vec)), d = (λ t, (t, g t)) <$> visited)
              (λ d t, y ← f t; Returned (setitem d t y)) l []) as (d & -> & ->).
  - done.
  - intros l1 t l2 d -> ->. rewrite (Hf t).
    2:{ apply elem_of_app. right. left. }
    rewrite bind_Returned. eexists. split; [done|].
    rewrite setitem_fresh.
    + by rewrite fmap_app.
    + rewrite <-list_fmap_compose.
      apply NoDup_app in Hnd as (_ & Hnd & _). intros Hin.
      apply list_elem_of_fmap in Hin as (t' & -> & Hin). simpl in Hnd.
      apply (Hnd _ Hin). left.
  - rewrite bind_Returned. f_equal. rewrite <-list_fmap_compose.
    by apply list_fmap_ext.
Qed.

Lemma dict_comprehension_returns (l : list Qc) (f : Qc → outcome vec) (g : Qc → vec) :
  (∀ t, t ∈ l → f t = Returned (g t)) →
  ∃ d, dict_comprehension l f = Returned d
       ∧ ∀ t, d !! t = if decide (t ∈ l) then Some (g t) else None.
Proof.
  intros Hf. unfold dict_comprehension.
  destruct (for_each_returns
              (λ visited (d : gmap Qc vec),
                 ∀ t, d !! t = if decide (t ∈ visited) then Some (g t) else None)
              (λ d t, y ← f t; Returned (<[t := y]> d)) l ∅) as (d & Hd & Hinv);
    [| |by exists d].
  - intros t. rewrite lookup_empty. rewrite decide_False; [done|]. apply not_elem_of_nil.
  - intros l1 t l2 d -> Hd. rewrite (Hf t).
    2:{ apply elem_of_app. right. left. }
    rewrite bind_Returned. eexists. split; [done|].
    intros t'. destruct (decide (t' = t)) as [->|Hne].
    + rewrite lookup_insert_eq. rewrite decide_True; [done|].
      apply elem_of_app. right. left.
    + rewrite lookup_insert_ne by done. rewrite Hd.
      destruct (decide (t' ∈ l1)) as [Hin|Hnin].
      * rewrite decide_True; [done|]. apply elem_of_app. by left.
      * rewrite decide_False; [done|].
        intros [Hin | Hin%list_elem_of_singleton]%elem_of_app; done.
Qed.

(** ** Dates *)

(** The keys of a run: [0.] and the entries of [t_span]. *)
Definition date (ts : list Qc) (i : nat) : Qc := nth i (0 :: ts) 0.

Lemma nth_seq_tail (a d : Qc) (ts : list Qc) :
  (λ i, nth i (a :: ts) d) <$> seq 1 (length ts) = ts.
Proof.
  revert a. induction ts as [|b ts IH]; intros a; [done|].
  cbn [length seq fmap list_fmap nth]. f_equal.
  rewrite <-fmap_S_seq.
  change (list_fmap nat Qc ?f (S <$> ?l)) with (f <$> (S <$> l)).
  rewrite <-list_fmap_compose. exact (IH b).
Qed.

Lemma date_seq (ts : list Qc) : date ts <$> seq 1 (length ts) = ts.
Proof. apply nth_seq_tail. Qed.

Lemma lookup_date (ts : list Qc) (i : nat) :
  (i ≤ length ts)%nat → (0 :: ts) !! i = Some (date ts i).
Proof.
  intros Hi. destruct (lookup_lt_is_Some_2 (0 :: ts) i) as [x Hx]; [simpl; lia|].
  rewrite Hx. f_equal. unfold date. symmetry. by apply nth_lookup_Some.
Qed.

Lemma lookup_date_tail (ts : list Qc) (t : nat) :
  (1 ≤ t ≤ length ts)%nat → ts !! (t - 1)%nat = Some (date ts t).
Proof.
  intros Ht. rewrite <-lookup_date by lia. destruct t as [|t]; [lia|].
  simpl. by rewrite Nat.sub_0_r.
Qed.

Lemma date_inj (ts : list Qc) (i j : nat) :
  NoDup (0 :: ts) → (i ≤ length ts)%nat → (j ≤ length ts)%nat →
  date ts i = date ts j → i = j.
Proof.
  intros Hnd Hi Hj Heq.
  apply (NoDup_lookup _ _ _ (date ts i) Hnd); [by apply lookup_date|].
  rewrite Heq. by apply lookup_date.
Qed.

Lemma elem_of_dates (ts : list Qc) (a k : nat) (key : Qc) :
  key ∈ date ts <$> seq a k ↔ ∃ t, (a ≤ t < a + k)%nat ∧ key = date ts t.
Proof.
  rewrite list_elem_of_fmap. split.
  - intros (t & -> & Ht%list_elem_of_In%in_seq). by exists t.
  - intros (t & Ht & ->). exists t. split; [done|].
    by apply list_elem_of_In, in_seq.
Qed.
(** ** Selections *)

Lemma length_tf_where (c : list bool) (x y : vec) :
  length (tf_where c x y) = (length c `min` (length x `min` length y))%nat.
Proof.
  revert x y. induction c as [|b c IH]; intros [|a x] [|a' y]; simpl; try lia.
  by rewrite IH.
Qed.

Lemma lookup_tf_where (c : list bool) (x y : vec) (j : nat) (b : bool) (a a' : Qc) :
  c !! j = Some b → x !! j = Some a → y !! j = Some a' →
  tf_where c x y !! j = Some (if b then a else a').
Proof.
  revert x y j. induction c as [|b0 c IH]; intros [|a0 x] [|a0' y] [|j]; simpl; try done.
  - by intros [= ->] [= ->] [= ->].
  - apply IH.
Qed.

Lemma lookup_greater (x y : vec) (j : nat) (a b : Qc) :
  x !! j = Some a → y !! j = Some b → greater x y !! j = Some (bool_decide (b < a)).
Proof.
  intros Hx Hy. unfold greater. by rewrite lookup_zip_with, Hx, Hy.
Qed.

Lemma length_greater (x y : vec) : length (greater x y) = (length x `min` length y)%nat.
Proof. apply length_zip_with. Qed.

(** ** Stacked columns and their sums *)

Lemma stack_axis1_rectangular (cols : list vec) : rectangular (stack_axis1 cols).
Proof.
  intros row Hrow. rewrite (stack_axis1_row_length cols row Hrow).
  unfold n_columns. destruct (stack_axis1 cols) as [|row0 rows] eqn:Hst.
  - by apply elem_of_nil in Hrow.
  - simpl. symmetry. apply (stack_axis1_row_length cols). rewrite Hst. left.
Qed.

(** Entry [(j, c)] of the stacked matrix is entry [j] of column [c]. *)
Lemma lookup_stack_axis1_entry (cols : list vec) (j c : nat) (col : vec) (a : Qc) :
  (j < length (hd [] cols))%nat → cols !! c = Some col → col !! j = Some a →
  ∃ row, stack_axis1 cols !! j = Some row ∧ row !! c = Some a.
Proof.
  intros Hj Hcol Ha. eexists. split; [by apply lookup_stack_axis1|].
  rewrite list_lookup_fmap, Hcol. simpl. f_equal. by apply nth_lookup_Qc.
Qed.

(** The per-path sum across the [m] dates, each weighted by [d]. *)
Definition discounted_sum (d : nat → Qc) (m : nat) (row : vec) : Qc :=
  reduce_sum ((λ i, nth i row 0 * d i) <$> seq 0 m).

Lemma vadd_fmap (f g : vec → Qc) (M : matrix) :
  vadd (f <$> M) (g <$> M) = (λ row, f row + g row) <$> M.
Proof.
  unfold vadd. apply list_eq. intros i.
  rewrite lookup_zip_with, !list_lookup_fmap. by destruct (M !! i).
Qed.

Lemma foldl_vadd_fmap (F : nat → vec → Qc) (A : vec → Qc) (M : matrix) (l : list nat) :
  foldl vadd (A <$> M) ((λ i, F i <$> M) <$> l)
  = (λ row, A row + reduce_sum ((λ i, F i row) <$> l)) <$> M.
Proof.
  revert A. induction l as [|i l IH]; intros A.
  - simpl. apply list_fmap_ext. intros _ row _. ring.
  - cbn [fmap list_fmap foldl]. rewrite vadd_fmap.
    rewrite (IH (λ row, A row + F i row)).
    apply list_fmap_ext. intros _ row _. simpl. ring.
Qed.

(** [tf.add_n] over the discounted columns sums each row across dates. *)
Lemma add_n_columns (d : nat → Qc) (m : nat) (M : matrix) :
  m ≠ 0%nat →
  add_n ((λ i, muls (column i M) (d i)) <$> seq 0 m) = discounted_sum d m <$> M.
Proof.
  intros Hm. destruct m as [|m]; [done|]. clear Hm.
  assert (Hcol : ∀ i, muls (column i M) (d i) = (λ row, nth i row 0 * d i) <$> M).
  { intros i. unfold muls, column. by rewrite <-list_fmap_compose. }
  cbn [seq fmap list_fmap add_n]. rewrite Hcol.
  rewrite (list_fmap_ext (λ i, muls (column i M) (d i))
             (λ i, (λ row, nth i row 0 * d i) <$> M) (seq 1 m)) by (intros; apply Hcol).
  rewrite (foldl_vadd_fmap (λ i row, nth i row 0 * d i)).
  apply list_fmap_ext. intros _ row _. reflexivity.
Qed.




(** The mean [tf.reduce_mean] returns on a non-empty tensor. *)
Definition mean_of (x : vec) : Qc := reduce_sum x / Qc_of_Z (Z.of_nat (length x)).

Lemma reduce_mean_returns (x : vec) : x ≠ [] → reduce_mean x = Returned (mean_of x).
Proof. intros Hx. unfold reduce_mean. by rewrite decide_False. Qed.





Lemma put_payoff_nonneg (K : Qc) (S : vec) : Forall (λ a, 0 ≤ a) (put_payoff K S).
Proof.
  unfold put_payoff. apply Forall_fmap, Forall_forall. intros s _. simpl.
  unfold Qcmax. case_decide as Hd; [by apply Qclt_le_weak | apply Qcle_refl].
Qed.


(** ** The dictionaries of a run *)

Lemma finite_values_Fin (v : vec) : finite_values (Ieee.Fin <$> v) = Returned v.
Proof.
  unfold finite_values. induction v as [|a v IH]; [done|].
  cbn [fmap list_fmap comprehension]. rewrite bind_Returned.
  change (list_fmap Qc Ieee.xval Ieee.Fin v) with (Ieee.Fin <$> v).
  by rewrite IH.
Qed.

(** On a cross-section that is not constant the float scaling stays
    finite and is [scale] on the rationals. *)
Lemma scale_floats_returns (x : vec) :
  reduce_min x ≠ reduce_max x → scale_floats x = Returned (scale x).
Proof.
  intros Hne. unfold scale_floats. rewrite decide_False by (by intros ->).
  rewrite (scale_finite x Hne). apply finite_values_Fin.
Qed.

Lemma length_scale (x : vec) : length (scale x) = length x.
Proof. unfold scale. by rewrite length_fmap. Qed.

Lemma length_put_payoff (K' : Qc) (S : vec) : length (put_payoff K' S) = length S.
Proof. unfold put_payoff. by rewrite length_fmap. Qed.

Section Pipeline.
Variable exp : Qc → Qc.
Variable sqrt : Qc → Qc.
Variable lstsq : matrix → vec → Qc → vec.
Variable random_normal : nat → nat → Qc.
Variable p : ModelParameters.

Lemma length_ridge_regression (X : matrix) (Y : vec) (l2 : Qc) :
  length (ridge_regression lstsq X Y l2) = length X.
Proof. unfold ridge_regression, matvec. by rewrite length_fmap. Qed.

(** The cross-section of step [t]: [advance] applied [t] times to the
    spot, with the draws of the calls [1 .. t]. *)
Fixpoint cross_section (Δt : Qc) (t : nat) : vec :=
  match t with
  | O => smul (Spot p) (ones (n p))
  | S t' => advance_values p (sqrt Δt) Δt (random_normal (S t') <$> seq 0 (n p))
              (cross_section Δt t')
  end.

Lemma length_cross_section (Δt : Qc) (t : nat) : length (cross_section Δt t) = n p.
Proof.
  induction t as [|t IH]; simpl.
  - unfold smul, ones. by rewrite length_fmap, length_replicate.
  - unfold advance_values, vadd, vmul, smul, muls.
    rewrite !length_zip_with, !length_fmap, length_seq, IH. lia.
Qed.

(** The keys [ts] of [t_span] carry the run through its subscripts:
    there are [m] of them, all different and none 0, the last one is
    [T], and rounding a key less, or plus, one step gives the key
    before, or after, it. *)
Definition chained (Δt : Qc) (ts : list Qc) : Prop :=
  length ts = m p
  ∧ date ts (m p) = T p
  ∧ NoDup (0 :: ts)
  ∧ Forall (λ i, np_round6 (fl (date ts (S i) - Δt)) = date ts i) (seq 0 (m p))
  ∧ Forall (λ i, np_round6 (fl (date ts i + Δt)) = date ts (S i)) (seq 1 (m p - 1)).

(** No cross-section the regression scales is constant. *)
Definition nondegenerate (Δt : Qc) : Prop :=
  Forall (λ t, reduce_min (cross_section Δt t) ≠ reduce_max (cross_section Δt t))
         (seq 1 (m p - 1)).

(** The continuation value of step [i], given the value of step [i + 1]. *)
Definition continuation_at (Δt : Qc) (i : nat) (v_next : vec) : vec :=
  ridge_regression lstsq (chebyshev_basis (scale (cross_section Δt i)) (order p)) v_next
    (Qc_of_Z 100).

(** The value of step [i], given the value of step [i + 1]. *)
Definition value_at (Δt discount : Qc) (i : nat) (v_next : vec) : vec :=
  smul discount
    (tf_where (greater (put_payoff (K p) (cross_section Δt i)) (continuation_at Δt i v_next))
       (put_payoff (K p) (cross_section Δt i)) v_next).

(** [tf.where(continuation_value[t] > cashflow[t], tf.zeros(n), cashflow[t])] *)
Definition payoff_of (continuation_t cashflow_t : vec) : vec :=
  tf_where (greater continuation_t cashflow_t) (zeros (n p)) cashflow_t.

(** [exp(-r * i * Δt)], the factor applied to column [i] of the
    extracted payoff matrix. *)
Definition column_discount (Δt : Qc) (i : nat) : Qc :=
  exp (- r p * Qc_of_Z (Z.of_nat i) * Δt).

Lemma length_continuation_at (Δt : Qc) (i : nat) (v_next : vec) :
  length (continuation_at Δt i v_next) = n p.
Proof.
  unfold continuation_at.
  by rewrite length_ridge_regression, length_chebyshev_basis, length_scale,
             length_cross_section.
Qed.

Lemma length_value_at (Δt discount : Qc) (i : nat) (v_next : vec) :
  length v_next = n p → length (value_at Δt discount i v_next) = n p.
Proof.
  intros Hv. unfold value_at, smul.
  rewrite length_fmap, length_tf_where, length_greater, length_continuation_at,
          length_put_payoff, length_cross_section, Hv. lia.
Qed.

Lemma length_payoff_of (q c : vec) :
  length q = n p → length c = n p → length (payoff_of q c) = n p.
Proof.
  intros Hq Hc. unfold payoff_of, zeros.
  rewrite length_tf_where, length_greater, length_replicate. lia.
Qed.

Lemma advance_returns (Δt : Qc) (call : nat) (S : vec) :
  0 ≤ Δt →
  advance sqrt random_normal p Δt call S
  = Returned (advance_values p (sqrt Δt) Δt (random_normal call <$> seq 0 (n p)) S).
Proof.
  intros Hpos. unfold advance, np_sqrt.
  rewrite decide_False; [done|]. by apply Qcle_not_lt.
Qed.

Section Dictionaries.
Variable Δt : Qc.
Variable ts : list Qc.

(** The dictionary [S] once the steps [1 .. k] are simulated. *)
Definition simulated (k : nat) (S : gmap Qc vec) : Prop :=
  (∀ t, (t ≤ k)%nat → S !! date ts t = Some (cross_section Δt t))
  ∧ (∀ key v, S !! key = Some v → ∃ t, (t ≤ k)%nat ∧ key = date ts t).

(** The cash flows of the steps [1 .. m]. *)
Definition cashflows (cashflow : gmap Qc vec) : Prop :=
  (∀ t, (1 ≤ t ≤ m p)%nat →
     cashflow !! date ts t = Some (put_payoff (K p) (cross_section Δt t)))
  ∧ (∀ key v, cashflow !! key = Some v → ∃ t, (1 ≤ t ≤ m p)%nat ∧ key = date ts t).

(** What one pass of the backward loop leaves at step [i]. *)
Definition recursion_at (discount : Qc) (value continuation_value : gmap Qc vec)
    (i : nat) : Prop :=
  ∃ v_next,
    value !! date ts (i + 1) = Some v_next
    ∧ continuation_value !! date ts i = Some (continuation_at Δt i v_next)
    ∧ value !! date ts i = Some (value_at Δt discount i v_next).

(** The two dictionaries of the recursion once the [k] steps
    [m - 1, ..., m - k] are visited. *)
Definition recursed_upto (k : nat) (discount : Qc)
    (st : gmap Qc vec * gmap Qc vec) : Prop :=
  st.1 !! T p = Some (muls (put_payoff (K p) (cross_section Δt (m p))) discount)
  ∧ st.2 !! T p = Some (zeros (n p))
  ∧ (∀ i, (m p - k ≤ i < m p)%nat → recursion_at discount st.1 st.2 i)
  ∧ (∀ key v, st.1 !! key = Some v →
       ∃ i, (m p - k ≤ i ≤ m p)%nat ∧ key = date ts i ∧ length v = n p)
  ∧ (∀ key v, st.2 !! key = Some v →
       ∃ i, (m p - k ≤ i ≤ m p)%nat ∧ key = date ts i ∧ length v = n p).

(** The values of the [payoff] dictionary, in the order of [t_span]. *)
Definition payoffs (continuation_value : gmap Qc vec) (payoff_dict : list vec) : Prop :=
  length payoff_dict = m p
  ∧ ∀ t, (1 ≤ t ≤ m p)%nat →
      ∃ q, continuation_value !! date ts t = Some q
           ∧ length q = n p
           ∧ payoff_dict !! (t - 1)%nat
             = Some (payoff_of q (put_payoff (K p) (cross_section Δt t))).

Hypothesis step_count : m p ≠ 0%nat.
Hypothesis step_size : 0 ≤ Δt.
Hypothesis keys : chained Δt ts.

Lemma keys_t_span : ts = date ts <$> seq 1 (m p).
Proof. destruct keys as (<- & _). symmetry. apply date_seq. Qed.

Lemma keys_elem_of (key : Qc) :
  key ∈ ts ↔ ∃ t, (1 ≤ t ≤ m p)%nat ∧ key = date ts t.
Proof.
  split.
  - intros Hin. rewrite keys_t_span in Hin.
    apply elem_of_dates in Hin as (t & Ht & ->). exists t. split; [lia|done].
  - intros (t & Ht & ->).
    assert (Hin : date ts t ∈ date ts <$> seq 1 (m p)).
    { apply elem_of_dates. exists t. split; [lia|done]. }
    by rewrite <-keys_t_span in Hin.
Qed.

Lemma keys_maturity : date ts (m p) = T p.
Proof. by destruct keys as (_ & ? & _). Qed.

Lemma keys_inj (i j : nat) :
  (i ≤ m p)%nat → (j ≤ m p)%nat → date ts i = date ts j → i = j.
Proof.
  destruct keys as (Hlen & _ & Hnd & _). intros Hi Hj.
  apply date_inj; [done|lia|lia].
Qed.

Lemma keys_previous (i : nat) :
  (i < m p)%nat → np_round6 (fl (date ts (S i) - Δt)) = date ts i.
Proof.
  destruct keys as (_ & _ & _ & Hprev & _). intros Hi.
  rewrite Forall_forall in Hprev. apply Hprev, list_elem_of_In, in_seq. lia.
Qed.

Lemma keys_next (i : nat) :
  (1 ≤ i < m p)%nat → np_round6 (fl (date ts i + Δt)) = date ts (S i).
Proof.
  destruct keys as (_ & _ & _ & _ & Hnext). intros Hi.
  rewrite Forall_forall in Hnext. apply Hnext, list_elem_of_In, in_seq. lia.
Qed.

Lemma simulate_returns :
  ∃ S, simulate sqrt random_normal p Δt ts = Returned S ∧ simulated (m p) S.
Proof.
  assert (Hgen : ∀ l, l = date ts <$> seq 1 (m p) →
            ∃ S, simulate sqrt random_normal p Δt l = Returned S ∧ simulated (m p) S);
    [|apply Hgen, keys_t_span].
  intros l ->. unfold simulate. rewrite for_each_fmap.
  destruct (for_each_returns
              (λ visited (st : gmap Qc vec * nat),
                 st.2 = length visited ∧ simulated (length visited) st.1)
              (λ st i, simulate_body sqrt random_normal p Δt st (date ts i))
              (seq 1 (m p))
              ({[ 0 := smul (Spot p) (ones (n p)) ]}, 0%nat)) as (st & Hst & Hcalls & Hinv).
  - split; [done|]. cbn [fst snd length]. split.
    + intros t Ht. replace t with 0%nat by lia.
      change (date ts 0) with (Q2Qc 0). by rewrite lookup_singleton_eq.
    + intros key v [<- _]%lookup_singleton_Some. exists 0%nat. by split.
  - intros l1 t l2 [S1 calls] Hl' (Hc & Hlook & Hkeys). simpl in Hc, Hlook, Hkeys.
    apply seq_split in Hl' as (-> & Hlt & _).
    unfold simulate_body. cbv zeta. cbn [fst snd].
    change (1 + length l1)%nat with (S (length l1)).
    rewrite (keys_previous (length l1) Hlt).
    rewrite (getitem_Some _ _ _ (Hlook (length l1) (le_n _))), bind_Returned.
    rewrite (advance_returns Δt _ _ step_size), bind_Returned.
    eexists. split; [done|]. rewrite length_app. cbn [fst snd length].
    rewrite Hc. replace (length l1 + 1)%nat with (S (length l1)) by lia.
    split; [done|]. split.
    + intros t Ht. destruct (decide (t = S (length l1))) as [->|Hne].
      * by rewrite lookup_insert_eq.
      * rewrite lookup_insert_ne.
        { apply Hlook. lia. }
        intros Heq. apply keys_inj in Heq; [done|lia|lia].
    + intros key v. destruct (decide (key = date ts (S (length l1)))) as [->|Hne].
      * intros _. by exists (S (length l1)).
      * rewrite lookup_insert_ne by done. intros Hv.
        destruct (Hkeys _ _ Hv) as (t & Ht & ->). exists t. split; [lia|done].
  - exists st.1. rewrite Hst, bind_Returned. split; [done|].
    by rewrite length_seq in Hinv.
Qed.

Lemma cashflow_returns (S : gmap Qc vec) :
  simulated (m p) S →
  ∃ cashflow,
    dict_comprehension ts (λ t, S_t ← getitem S t; Returned (put_payoff (K p) S_t))
    = Returned cashflow
    ∧ cashflows cashflow.
Proof.
  intros (Hlook & Hkeys).
  destruct (dict_comprehension_returns ts
              (λ t, S_t ← getitem S t; Returned (put_payoff (K p) S_t))
              (λ t, put_payoff (K p) (default [] (S !! t)))) as (cashflow & Hc & Hd).
  { intros key (t & Ht & ->)%keys_elem_of.
    rewrite (getitem_Some _ _ _ (Hlook t ltac:(lia))), bind_Returned.
    by rewrite (Hlook t) by lia. }
  exists cashflow. split; [done|]. split.
  - intros t Ht. rewrite Hd, decide_True.
    + by rewrite (Hlook t) by lia.
    + apply keys_elem_of. by exists t.
  - intros key v. rewrite Hd. case_decide as Hin; [|done].
    intros _. by apply keys_elem_of.
Qed.

Lemma recursion_returns (discount : Qc) (S cashflow : gmap Qc vec) :
  nondegenerate Δt → simulated (m p) S → cashflows cashflow →
  ∃ st,
    for_each (tail (rev ts)) (recursion_body lstsq p Δt S cashflow discount)
      ({[ T p := muls (put_payoff (K p) (cross_section Δt (m p))) discount ]},
       {[ T p := zeros (n p) ]}) = Returned st
    ∧ recursed_upto (m p - 1) discount st.
Proof.
  intros Hnd (Hlook & _) (Hcash & _).
  pose proof keys_maturity as HT.
  assert (Hgen : ∀ l, l = date ts <$> seq 1 (m p) →
            ∃ st,
              for_each (tail (rev l)) (recursion_body lstsq p Δt S cashflow discount)
                ({[ T p := muls (put_payoff (K p) (cross_section Δt (m p))) discount ]},
                 {[ T p := zeros (n p) ]}) = Returned st
              ∧ recursed_upto (m p - 1) discount st);
    [|apply Hgen, keys_t_span].
  intros l ->. rewrite rev_fmap, tail_fmap, backward_steps, for_each_fmap.
  destruct (for_each_returns
              (λ visited st, recursed_upto (length visited) discount st)
              (λ st i, recursion_body lstsq p Δt S cashflow discount st (date ts i))
              (rev (seq 1 (m p - 1)))
              ({[ T p := muls (put_payoff (K p) (cross_section Δt (m p))) discount ]},
               {[ T p := zeros (n p) ]}))
    as (st & Hst & Hinv).
  - unfold recursed_upto. cbn [fst snd length].
    split; [by rewrite lookup_singleton_eq|].
    split; [by rewrite lookup_singleton_eq|]. split; [intros i Hi; lia|].
    split.
    + intros key v [<- <-]%lookup_singleton_Some. exists (m p).
      split; [lia|]. split; [done|].
      unfold muls. by rewrite length_fmap, length_put_payoff, length_cross_section.
    + intros key v [<- <-]%lookup_singleton_Some. exists (m p).
      split; [lia|]. split; [done|]. apply length_replicate.
  - intros l1 t l2 [value cont] Hl' (HvT & HqT & Hrec & Hvkeys & Hqkeys).
    simpl in HvT, HqT, Hrec, Hvkeys, Hqkeys.
    apply backward_split in Hl' as (Ht & Ht1 & Hlt).
    assert (Hnext : ∃ v_next, value !! date ts (t + 1) = Some v_next
                              ∧ length v_next = n p).
    { destruct (decide (t + 1 = m p)%nat) as [->|Hne].
      - rewrite HT. eexists. split; [exact HvT|].
        unfold muls. by rewrite length_fmap, length_put_payoff, length_cross_section.
      - destruct (Hrec (t + 1)%nat) as (v' & _ & _ & Hv); [lia|].
        eexists. split; [exact Hv|]. destruct (Hvkeys _ _ Hv) as (_ & _ & _ & Hlen). done. }
    destruct Hnext as (v_next & Hnext & Hnextlen).
    assert (Hscale : scale_floats (cross_section Δt t) = Returned (scale (cross_section Δt t))).
    { apply scale_floats_returns. unfold nondegenerate in Hnd.
      rewrite Forall_forall in Hnd. apply Hnd, list_elem_of_In, in_seq. lia. }
    eexists. unfold recursion_body, ridge_regression_default. cbv zeta.
    rewrite (keys_next t) by lia. rewrite <-(Nat.add_1_r t).
    rewrite (getitem_Some _ _ _ (Hlook t ltac:(lia))), bind_Returned.
    rewrite Hscale, bind_Returned.
    rewrite (getitem_Some _ _ _ Hnext), !bind_Returned.
    rewrite (getitem_Some _ _ _ (Hcash t ltac:(lia))), bind_Returned.
    rewrite (getitem_Some _ _ _ (lookup_insert_eq _ _ _)), !bind_Returned.
    split; [done|].
    assert (Hkey : ∀ i, (i ≤ m p)%nat → i ≠ t → date ts t ≠ date ts i).
    { intros i Hi Hne Heq. apply keys_inj in Heq; [by apply Hne|lia|lia]. }
    rewrite length_app. simpl.
    split; [|split; [|split; [|split]]]; simpl.
    + rewrite lookup_insert_ne; [done|]. rewrite <-HT. apply Hkey; lia.
    + rewrite lookup_insert_ne; [done|]. rewrite <-HT. apply Hkey; lia.
    + intros i Hi. destruct (decide (i = t)) as [->|Hne].
      * exists v_next. split; [by rewrite lookup_insert_ne by (apply Hkey; lia)|].
        split; by rewrite lookup_insert_eq.
      * destruct (Hrec i) as (v' & H1 & H2 & H3); [lia|].
        exists v'. rewrite !lookup_insert_ne by (apply Hkey; lia). done.
    + intros key v. destruct (decide (key = date ts t)) as [->|Hne].
      * rewrite lookup_insert_eq. intros [= <-]. exists t. split; [lia|].
        split; [done|]. by apply length_value_at.
      * rewrite lookup_insert_ne by done. intros Hv.
        destruct (Hvkeys _ _ Hv) as (i & Hi & -> & Hlen). exists i. split; [lia|done].
    + intros key v. destruct (decide (key = date ts t)) as [->|Hne].
      * rewrite lookup_insert_eq. intros [= <-]. exists t. split; [lia|].
        split; [done|]. apply length_continuation_at.
      * rewrite lookup_insert_ne by done. intros Hv.
        destruct (Hqkeys _ _ Hv) as (i & Hi & -> & Hlen). exists i. split; [lia|done].
  - exists st. split; [done|]. by rewrite length_rev, length_seq in Hinv.
Qed.

Lemma continuation_defined (discount : Qc) (st : gmap Qc vec * gmap Qc vec) (t : nat) :
  recursed_upto (m p - 1) discount st → (1 ≤ t ≤ m p)%nat →
  ∃ q, st.2 !! date ts t = Some q ∧ length q = n p.
Proof.
  intros (_ & HqT & Hrec & _ & Hqkeys) Ht.
  assert (Hq : is_Some (st.2 !! date ts t)).
  { destruct (decide (t = m p)) as [->|Hne].
    - rewrite keys_maturity. by eexists.
    - destruct (Hrec t) as (? & _ & Hq & _); [lia|]. by eexists. }
  destruct Hq as [q Hq]. exists q. split; [done|].
  by destruct (Hqkeys _ _ Hq) as (_ & _ & _ & ?).
Qed.

Lemma payoff_returns (discount : Qc) (cashflow : gmap Qc vec)
    (st : gmap Qc vec * gmap Qc vec) :
  cashflows cashflow → recursed_upto (m p - 1) discount st →
  ∃ payoff_dict,
    comprehension_values ts (payoff_entry p cashflow st.2) = Returned payoff_dict
    ∧ payoffs st.2 payoff_dict.
Proof.
  intros (Hcash & _) Hrec.
  pose proof (λ t, continuation_defined discount st t Hrec) as Hq.
  assert (Hlen : length ts = m p) by (by destruct keys).
  eexists. split.
  - apply (comprehension_values_returns _ _
             (λ t, payoff_of (default [] (st.2 !! t)) (default [] (cashflow !! t)))).
    { destruct keys as (_ & _ & Hnd & _). by apply NoDup_cons in Hnd as [_ ?]. }
    intros key (t & Ht & ->)%keys_elem_of.
    unfold payoff_entry. destruct (Hq t) as (q & Hqt & _); [lia|].
    rewrite (getitem_Some _ _ _ Hqt), bind_Returned,
            (getitem_Some _ _ _ (Hcash t ltac:(lia))), bind_Returned.
    cbv beta. by rewrite Hqt, (Hcash t) by lia.
  - split; [by rewrite length_fmap|].
    intros t Ht. destruct (Hq t Ht) as (q & Hqt & Hql).
    exists q. split; [done|]. split; [done|].
    rewrite list_lookup_fmap, lookup_date_tail by lia. simpl.
    by rewrite Hqt, (Hcash t) by lia.
Qed.

(** The stacked payoffs form an [n × m] matrix whose column [t - 1]
    is the payoff of step [t]; extraction is the scan; the columns
    times their factors add up to the per-path discounted sums. *)
Lemma payoff_matrix (continuation_value : gmap Qc vec) (payoff_dict : list vec) :
  payoffs continuation_value payoff_dict →
  length (stack_axis1 payoff_dict) = n p
  ∧ (∀ row, row ∈ stack_axis1 payoff_dict → length row = m p)
  ∧ (∀ t j, (1 ≤ t ≤ m p)%nat → (j < n p)%nat →
       ∃ q row, continuation_value !! date ts t = Some q
         ∧ stack_axis1 payoff_dict !! j = Some row
         ∧ row !! (t - 1)%nat
           = payoff_of q (put_payoff (K p) (cross_section Δt t)) !! j)
  ∧ first_one (stack_axis1 payoff_dict) = keep_first_positive <$> stack_axis1 payoff_dict
  ∧ add_n ((λ i, muls (column i (first_one (stack_axis1 payoff_dict)))
                      (column_discount Δt i)) <$> range_m p)
    = discounted_sum (column_discount Δt) (m p) <$> first_one (stack_axis1 payoff_dict).
Proof.
  intros (Hlen & Hpay).
  assert (Hcol : ∀ t, (1 ≤ t ≤ m p)%nat →
            ∃ q, continuation_value !! date ts t = Some q
                 ∧ payoff_dict !! (t - 1)%nat
                   = Some (payoff_of q (put_payoff (K p) (cross_section Δt t)))
                 ∧ length (payoff_of q (put_payoff (K p) (cross_section Δt t))) = n p).
  { intros t Ht. destruct (Hpay t Ht) as (q & Hq & Hql & Hp).
    exists q. split; [done|]. split; [done|].
    apply length_payoff_of; [done|]. by rewrite length_put_payoff, length_cross_section. }
  assert (Hhd : length (hd [] payoff_dict) = n p).
  { destruct (Hcol 1%nat) as (q & _ & Hp & Hl); [lia|].
    simpl in Hp. destruct payoff_dict; [done|]. simpl in *. by injection Hp as ->. }
  split; [by rewrite length_stack_axis1|].
  split.
  { intros row Hrow. by rewrite (stack_axis1_row_length _ _ Hrow). }
  split.
  { intros t j Ht Hj. destruct (Hcol t Ht) as (q & Hq & Hp & Hl).
    destruct (lookup_lt_is_Some_2 (payoff_of q (put_payoff (K p) (cross_section Δt t))) j)
      as [a Ha]; [lia|].
    destruct (lookup_stack_axis1_entry payoff_dict j (t - 1)
                (payoff_of q (put_payoff (K p) (cross_section Δt t))) a)
      as (row & Hrow & Hent); [lia | done | done |].
    exists q, row. split; [done|]. split; [done|]. by rewrite Ha. }
  split.
  { apply first_one_scan, stack_axis1_rectangular. }
  unfold range_m. by apply add_n_columns.
Qed.
End Dictionaries.
End Pipeline.

(** ** The runs that return *)

Section Returns.
Variable exp : Qc → Qc.
Variable sqrt : Qc → Qc.
Variable lstsq : matrix → vec → Qc → vec.
Variable random_normal : nat → nat → Qc.
Variable p : ModelParameters.

(** [Δt] and [t_span] as the main cell computes them. *)
Definition time_step : Qc := fl (T p / Qc_of_Z (Z.of_nat (m p))).
Definition dates : list Qc := default [] (returned (t_span p time_step)).

(** A run that neither misses a key nor leaves the finite floats: at
    least one step and one path, a step [Δt] that is not negative, keys
    that chain, and no constant cross-section. *)
Definition regular_run : Prop :=
  m p ≠ 0%nat
  ∧ n p ≠ 0%nat
  ∧ 0 ≤ time_step
  ∧ chained p time_step dates
  ∧ nondegenerate sqrt random_normal p time_step.

(** Everything a returned run has computed. *)
Definition priced (g : graph) : Prop :=
  g_Δt g = time_step
  ∧ g_t_span g = dates
  ∧ simulated sqrt random_normal p (g_Δt g) (g_t_span g) (m p) (g_S g)
  ∧ g_discount g = exp (- r p * g_Δt g)
  ∧ cashflows sqrt random_normal p (g_Δt g) (g_t_span g) (g_cashflow g)
  ∧ recursed_upto sqrt lstsq random_normal p (g_Δt g) (g_t_span g) (m p - 1) (g_discount g)
      (g_value g, g_continuation_value g)
  ∧ payoffs sqrt random_normal p (g_Δt g) (g_t_span g) (g_continuation_value g)
      (g_payoff_dict g)
  ∧ g_payoff_stacked g = stack_axis1 (g_payoff_dict g)
  ∧ g_payoff g = first_one (g_payoff_stacked g)
  ∧ g_discounted_payoff g
    = (λ i, muls (column i (g_payoff g)) (column_discount exp p (g_Δt g) i)) <$> range_m p
  ∧ g_price g = mean_of (add_n (g_discounted_payoff g)).

Lemma regular_t_span : regular_run → t_span p time_step = Returned dates.
Proof.
  intros (Hm & _ & _ & (Hlen & _) & _). unfold dates in *.
  destruct (t_span p time_step); simpl in *; [done|lia|lia].
Qed.

(** A regular run returns. *)
Lemma lsmc_returns :
  regular_run → ∃ g, lsmc exp sqrt lstsq random_normal p = Returned g ∧ priced g.
Proof.
  intros Hreg. pose proof (regular_t_span Hreg) as Hts.
  destruct Hreg as (Hm & Hn & Hpos & Hkeys & Hnd).
  unfold lsmc, true_div. rewrite decide_False by done.
  rewrite bind_Returned. fold time_step. rewrite Hts, bind_Returned.
  destruct (simulate_returns sqrt random_normal p time_step dates Hm Hpos Hkeys)
    as (S & -> & HS).
  rewrite bind_Returned.
  destruct (cashflow_returns sqrt random_normal p time_step dates Hm Hkeys S HS)
    as (cashflow & -> & Hcash).
  rewrite bind_Returned.
  pose proof (proj1 Hcash (m p) ltac:(lia)) as HcT.
  rewrite (keys_maturity p time_step dates Hkeys) in HcT.
  rewrite (getitem_Some _ _ _ HcT), bind_Returned.
  destruct (recursion_returns sqrt lstsq random_normal p time_step dates Hm Hkeys
              (exp (- r p * time_step)) S cashflow Hnd HS Hcash) as ([value cont] & -> & Hrec).
  rewrite bind_Returned.
  destruct (payoff_returns sqrt lstsq random_normal p time_step dates Hm Hkeys
              (exp (- r p * time_step)) cashflow (value, cont) Hcash Hrec)
    as (payoff_dict & Hpd & Hpay).
  cbn [snd] in Hpd, Hpay. rewrite Hpd, bind_Returned.
  destruct (payoff_matrix exp sqrt random_normal p time_step dates Hm cont payoff_dict Hpay)
    as (Hrows & _ & _ & Hscan & Hsum).
  rewrite reduce_mean_returns.
  2:{ unfold column_discount in Hsum. rewrite Hsum, Hscan.
      intros Hnil. apply (f_equal length) in Hnil.
      rewrite !length_fmap, Hrows in Hnil. simpl in Hnil. lia. }
  rewrite bind_Returned. eexists. split; [reflexivity|].
  unfold priced. simpl. repeat (split; [done|]). done.
Qed.

(** Without a time step the division [Δt = T / m] raises. *)
Lemma lsmc_zero_steps :
  m p = 0%nat → lsmc exp sqrt lstsq random_normal p = Raised ZeroDivisionError.
Proof. intros Hm. unfold lsmc, true_div. by rewrite decide_True. Qed.

(** With maturity 0 the step is 0 and [np.arange] divides by it. *)
Lemma lsmc_zero_maturity :
  m p ≠ 0%nat → T p = 0 → lsmc exp sqrt lstsq random_normal p = Raised ZeroDivisionError.
Proof.
  intros Hm HT. unfold lsmc, true_div. rewrite decide_False by done.
  rewrite bind_Returned, HT.
  replace (0 / Qc_of_Z (Z.of_nat (m p))) with (Q2Qc 0) by (unfold Qcdiv; ring).
  change (fl 0) with (Q2Qc 0). unfold t_span, np_arange.
  by rewrite decide_True.
Qed.
End Returns.

#[global] Instance regular_run_dec sqrt random_normal p :
  Decision (regular_run sqrt random_normal p).
Proof. unfold regular_run, chained, nondegenerate. apply _. Defined.

(** ** Backward induction *)

Section BackwardInduction.
Variable exp : Qc → Qc.
Variable sqrt : Qc → Qc.
Variable lstsq : matrix → vec → Qc → vec.
Variable random_normal : nat → nat → Qc.
Variable p : ModelParameters.

End BackwardInduction.

(** A run on four quarterly steps, with four paths. *)
Definition example_parameters : ModelParameters :=
  {| Spot := Qc_of_Z 36; σ := qc 1 5; K := Qc_of_Z 40; r := qc 3 50; T := 1;
     order := 3; n := 4; m := 4 |}.

Lemma example_regular_run :
  regular_run Reference.sqrt Reference.random_normal example_parameters.
Proof. compute_done. Qed.


(** ** Exercise signal *)

Lemma tf_where_tie (c x y : vec) :
  length x = length c → length y = length c → tf_where (greater c c) x y = y.
Proof.
  revert x y. induction c as [|a c IH]; intros [|b x] [|b' y] Hx Hy; try done.
  cbn [greater zip_with tf_where].
  rewrite bool_decide_eq_false_2 by apply Qcle_not_lt, Qcle_refl.
  f_equal. apply IH; simpl in *; lia.
Qed.

(** C5 at a tie: where [continuation_value[t]] equals [cashflow[t]] on
    every path, the payoff recorded for extraction is the cash flow
    itself, not 0; the value recursion, under its strict test
    [cashflow[t] > continuation_value[t]], takes no exercise at the
    same tie and keeps [value[t_next]]. *)
Theorem payoff_at_tie (p : ModelParameters) (c v_next : vec) :
  length c = n p → length v_next = n p →
  payoff_of p c c = c ∧ tf_where (greater c c) c v_next = v_next.
Proof.
  intros Hc Hv. split.
  - unfold payoff_of, zeros. apply tf_where_tie; [|done].
    by rewrite length_replicate.
  - apply tf_where_tie; [done|]. by rewrite Hv.
Qed.

Lemma payoff_at_tie_witness :
  length [1; 1; 1; 1] = n example_parameters
  ∧ length [qc 1 2; qc 1 2; qc 1 2; qc 1 2] = n example_parameters
  ∧ payoff_of example_parameters [1; 1; 1; 1] [1; 1; 1; 1] = [1; 1; 1; 1]
  ∧ payoff_of example_parameters [1; 1; 1; 1] [1; 1; 1; 1] ≠ [0; 0; 0; 0].
Proof.
  split; [reflexivity|]. split; [reflexivity|].
  destruct (payoff_at_tie example_parameters [1; 1; 1; 1] [qc 1 2; qc 1 2; qc 1 2; qc 1 2]
              eq_refl eq_refl) as [Hpay _].
  split; [exact Hpay|]. rewrite Hpay. discriminate.
Defined.

(** ** Stacking, discounting and the price *)

Section Price.
Variable exp : Qc → Qc.
Variable sqrt : Qc → Qc.
Variable lstsq : matrix → vec → Qc → vec.
Variable random_normal : nat → nat → Qc.
Variable p : ModelParameters.

(** C2, as the code has it: on a regular run the payoff matrix consumed
    by extraction is [n × m], one column per time step [1 .. m] (column
    [t - 1] holds step [t]); each row of the extracted matrix has at
    most one non-zero entry; every column is multiplied by its factor
    [column_discount], the products are summed across the [m] columns
    for each path, and the price is the mean of these sums over the [n]
    paths. *)
Theorem price_is_mean_of_discounted_payoffs :
  regular_run sqrt random_normal p →
  ∃ g, lsmc exp sqrt lstsq random_normal p = Returned g
    ∧ length (g_payoff_stacked g) = n p
    ∧ (∀ row, row ∈ g_payoff_stacked g → length row = m p)
    ∧ (∀ t j, (1 ≤ t ≤ m p)%nat → (j < n p)%nat →
         ∃ q c row, g_continuation_value g !! date (g_t_span g) t = Some q
           ∧ g_cashflow g !! date (g_t_span g) t = Some c
           ∧ g_payoff_stacked g !! j = Some row
           ∧ row !! (t - 1)%nat = payoff_of p q c !! j)
    ∧ g_payoff g = first_one (g_payoff_stacked g)
    ∧ length (g_payoff g) = n p
    ∧ (∀ row, row ∈ g_payoff g →
         length row = m p
         ∧ ∀ i1 i2 b1 b2, row !! i1 = Some b1 → row !! i2 = Some b2 →
             b1 ≠ 0 → b2 ≠ 0 → i1 = i2)
    ∧ g_discounted_payoff g
      = (λ i, muls (column i (g_payoff g)) (column_discount exp p (g_Δt g) i))
          <$> seq 0 (m p)
    ∧ add_n (g_discounted_payoff g)
      = discounted_sum (column_discount exp p (g_Δt g)) (m p) <$> g_payoff g
    ∧ g_price g
      = reduce_sum (discounted_sum (column_discount exp p (g_Δt g)) (m p) <$> g_payoff g)
        / Qc_of_Z (Z.of_nat (n p)).
Proof.
  intros Hreg.
  destruct (lsmc_returns exp sqrt lstsq random_normal p Hreg)
    as (g & Hg & _ & _ & _ & _ & Hcash & _ & Hpay & Hst & Hfo & Hdp & Hprice).
  destruct Hreg as (Hm & _).
  destruct (payoff_matrix exp sqrt random_normal p (g_Δt g) (g_t_span g) Hm _ _ Hpay)
    as (Hrows & Hcols & Hent & Hscan & Hsum).
  rewrite <-Hst in Hrows, Hcols, Hent, Hscan, Hsum. rewrite <-Hfo in Hscan, Hsum.
  rewrite <-Hdp in Hsum.
  exists g. split; [done|]. split; [done|]. split; [done|].
  split.
  { intros t j Ht Hj. destruct (Hent t j Ht Hj) as (q & row & Hq & Hrow & Hentry).
    exists q, (put_payoff (K p) (cross_section sqrt random_normal p (g_Δt g) t)), row.
    split; [done|]. split; [by apply (proj1 Hcash)|]. done. }
  split; [done|]. split; [by rewrite Hscan, length_fmap|].
  split.
  { intros row. rewrite Hscan. intros (row0 & -> & Hin)%list_elem_of_fmap.
    split; [rewrite keep_first_positive_length; by apply Hcols|].
    apply keep_first_positive_unique. }
  split; [done|]. split; [done|].
  rewrite Hprice, Hsum. unfold mean_of. by rewrite length_fmap, Hscan, length_fmap, Hrows.
Qed.
End Price.

Lemma price_is_mean_of_discounted_payoffs_witness :
  regular_run Reference.sqrt Reference.random_normal example_parameters
  ∧ ∃ g, lsmc Reference.exp Reference.sqrt Reference.lstsq Reference.random_normal
           example_parameters = Returned g
         ∧ length (g_payoff_stacked g) = n example_parameters.
Proof.
  split; [exact example_regular_run|].
  destruct (price_is_mean_of_discounted_payoffs Reference.exp Reference.sqrt Reference.lstsq
              Reference.random_normal example_parameters example_regular_run)
    as (g & Hg & Hlen & _).
  exists g. by split.
Defined.

(** C2 on a run with [m = 4] steps and [n = 4] paths: every row of the
    payoff matrix has 4 columns, not 5. *)
Lemma payoff_matrix_has_m_columns :
  (λ g, length <$> g_payoff_stacked g)
    <$> returned (lsmc Reference.exp Reference.sqrt Reference.lstsq Reference.random_normal
                    example_parameters)
  = Some [4; 4; 4; 4]%nat
  ∧ (λ g, length <$> g_payoff_stacked g)
      <$> returned (lsmc Reference.exp Reference.sqrt Reference.lstsq Reference.random_normal
                      example_parameters)
    ≠ Some (replicate (n example_parameters) (m example_parameters + 1)%nat).
Proof. split; [vm_compute; reflexivity | vm_compute; discriminate]. Qed.

(** The factor of column [t - 1], the column of step [t]: the exponent
    counts [t - 1] steps. *)
Lemma column_discount_of_step (exp : Qc → Qc) (p : ModelParameters) (Δt : Qc) (t : nat) :
  (1 ≤ t)%nat →
  column_discount exp p Δt (t - 1) = exp (- r p * (Qc_of_Z (Z.of_nat t) - 1) * Δt).
Proof.
  intros Ht. unfold column_discount. f_equal. f_equal. f_equal.
  apply Qc_is_canon. simpl. rewrite Qred_correct.
  replace (Z.of_nat (t - 1)) with (Z.of_nat t - 1)%Z by lia.
  unfold Qeq. simpl. lia.
Qed.

(** ** Nonnegativity *)





Section Nonnegativity.
Variable exp : Qc → Qc.
Variable sqrt : Qc → Qc.
Variable lstsq : matrix → vec → Qc → vec.
Variable random_normal : nat → nat → Qc.
Variable p : ModelParameters.
Hypothesis exp_nonneg : ∀ x, 0 ≤ exp x.

End Nonnegativity.


(** ** Parameters are not validated *)

(** Negative volatility, zero strike. *)
Definition invalid_parameters : ModelParameters :=
  {| Spot := Qc_of_Z 36; σ := - qc 1 5; K := 0; r := qc 3 50; T := 1;
     order := 2; n := 3; m := 2 |}.

Definition negative_volatility : ModelParameters :=
  {| Spot := Qc_of_Z 36; σ := - qc 1 5; K := Qc_of_Z 40; r := qc 3 50; T := 1;
     order := 2; n := 3; m := 2 |}.

Definition negative_spot : ModelParameters :=
  {| Spot := - Qc_of_Z 36; σ := qc 1 5; K := Qc_of_Z 40; r := qc 3 50; T := 1;
     order := 2; n := 3; m := 2 |}.

Definition zero_strike : ModelParameters :=
  {| Spot := Qc_of_Z 36; σ := qc 1 5; K := 0; r := qc 3 50; T := 1;
     order := 2; n := 3; m := 2 |}.

Definition no_steps : ModelParameters :=
  {| Spot := Qc_of_Z 36; σ := qc 1 5; K := Qc_of_Z 40; r := qc 3 50; T := 1;
     order := 2; n := 3; m := 0 |}.

(** What a run reports: the number of dates in [S] and the price, or
    the exception. *)
Definition report (o : outcome graph) : option (nat * Qc) + option exn :=
  match o with
  | Returned g => inl (Some (size (g_S g), g_price g))
  | Raised e => inr (Some e)
  | NotFinite => inr None
  end.

(** C8 on runs of two steps with volatility [-0.2], with spot [-36]
    and with strike 0: the two simulation steps are taken ([S] holds the
    three dates) and a price is returned; and on a run with [m = 0]:
    what is raised is Python's ZeroDivisionError. *)
Lemma invalid_parameters_are_priced :
  σ negative_volatility < 0
  ∧ report (lsmc Reference.exp Reference.sqrt Reference.lstsq Reference.random_normal
              negative_volatility)
    = inl (Some (3%nat, qc 5367 850))
  ∧ Spot negative_spot ≤ 0
  ∧ report (lsmc Reference.exp Reference.sqrt Reference.lstsq Reference.random_normal
              negative_spot)
    = inl (Some (3%nat, qc 68403 850))
  ∧ K zero_strike ≤ 0
  ∧ report (lsmc Reference.exp Reference.sqrt Reference.lstsq Reference.random_normal
              zero_strike)
    = inl (Some (3%nat, 0))
  ∧ report (lsmc Reference.exp Reference.sqrt Reference.lstsq Reference.random_normal
              no_steps)
    = inr (Some ZeroDivisionError).
Proof. repeat split; compute_done. Qed.

Section Validation.
Variable exp : Qc → Qc.
Variable sqrt : Qc → Qc.
Variable lstsq : matrix → vec → Qc → vec.
Variable random_normal : nat → nat → Qc.
Variable p : ModelParameters.

(** C8, as the code has it: the run validates no parameter and has no
    InvalidParameter error.  For every ModelParameters with negative
    volatility, non-positive spot or non-positive strike, a regular run
    takes every one of its [m] simulation steps and returns a price.  A
    run with [m = 0] stops before the simulation on the
    ZeroDivisionError of [Δt = T / m], and a run with [T = 0] on the one
    of [np.arange]. *)
Theorem no_parameter_validation :
  σ p < 0 ∨ Spot p ≤ 0 ∨ K p ≤ 0 →
  (regular_run sqrt random_normal p →
     ∃ g, lsmc exp sqrt lstsq random_normal p = Returned g
       ∧ g_S g !! 0 = Some (smul (Spot p) (ones (n p)))
       ∧ (∀ t, (1 ≤ t ≤ m p)%nat →
            ∃ prev out,
              g_S g !! date (g_t_span g) (t - 1) = Some prev
              ∧ advance sqrt random_normal p (g_Δt g) t prev = Returned out
              ∧ g_S g !! date (g_t_span g) t = Some out)
       ∧ reduce_mean (add_n (g_discounted_payoff g)) = Returned (g_price g))
  ∧ (m p = 0%nat → lsmc exp sqrt lstsq random_normal p = Raised ZeroDivisionError)
  ∧ (m p ≠ 0%nat → T p = 0 →
       lsmc exp sqrt lstsq random_normal p = Raised ZeroDivisionError).
Proof.
  intros _. split; [|split; [apply lsmc_zero_steps | apply lsmc_zero_maturity]].
  intros Hreg.
  destruct (lsmc_returns exp sqrt lstsq random_normal p Hreg)
    as (g & Hg & HΔt & Hts & (HS & _) & _ & _ & _ & Hpay & Hst & Hfo & Hdp & Hprice).
  destruct Hreg as (Hm & Hn & Hpos & _). rewrite <-HΔt in Hpos.
  exists g. split; [done|]. split; [apply (HS 0%nat); lia|].
  split.
  { intros t Ht. destruct t as [|t]; [lia|].
    eexists _, _. split; [apply HS; lia|].
    split; [by apply advance_returns|].
    rewrite (HS (S t)) by lia. simpl. by rewrite Nat.sub_0_r. }
  rewrite Hprice. apply reduce_mean_returns.
  destruct (payoff_matrix exp sqrt random_normal p (g_Δt g) (g_t_span g) Hm _ _ Hpay)
    as (Hrows & _ & _ & Hscan & Hsum).
  rewrite Hdp, Hfo, Hst, Hsum, Hscan. intros Hnil. apply (f_equal length) in Hnil.
  rewrite !length_fmap, Hrows in Hnil. simpl in Hnil. lia.
Qed.
End Validation.

Lemma no_parameter_validation_witness :
  (σ invalid_parameters < 0 ∨ Spot invalid_parameters ≤ 0 ∨ K invalid_parameters ≤ 0)
  ∧ regular_run Reference.sqrt Reference.random_normal invalid_parameters
  ∧ ∃ g, lsmc Reference.exp Reference.sqrt Reference.lstsq Reference.random_normal
           invalid_parameters = Returned g
         ∧ reduce_mean (add_n (g_discounted_payoff g)) = Returned (g_price g).
Proof.
  assert (Hbad : σ invalid_parameters < 0 ∨ Spot invalid_parameters ≤ 0
                 ∨ K invalid_parameters ≤ 0) by (left; compute_done).
  assert (Hreg : regular_run Reference.sqrt Reference.random_normal invalid_parameters)
    by compute_done.
  split; [exact Hbad|]. split; [exact Hreg|].
  destruct (no_parameter_validation Reference.exp Reference.sqrt Reference.lstsq
              Reference.random_normal invalid_parameters Hbad) as [Hrun _].
  destruct (Hrun Hreg) as (g & Hg & _ & _ & Hprice).
  exists g. by split.
Defined.
(** ** Ridge regression *)

(** [‖X z − Y‖² + l2 ‖z‖²] *)
Definition ridge_objective (X : matrix) (Y : vec) (l2 : Qc) (z : vec) : Qc :=
  let residual := vsub (matvec X z) Y in
  dot residual residual + l2 * dot z z.

(** Whatever penalty the caller passes, the solve uses 100. *)
Lemma ridge_regression_ignores_penalty (lstsq : matrix → vec → Qc → vec)
    (X : matrix) (Y : vec) (l2 l2' : Qc) :
  ridge_regression lstsq X Y l2 = ridge_regression lstsq X Y l2'
  ∧ ridge_regression lstsq X Y l2 = matvec X (lstsq X Y (Qc_of_Z 100)).
Proof. split; reflexivity. Qed.

(** C4 at [X = [[1]]], [Y = [1]], [λ = 0]: the regressor returns the
    fitted value 1/101 of the penalty 100, whose coefficient does not
    minimise the objective of the penalty 0 that was passed; the fitted
    value of that penalty is 1. *)
Theorem ridge_regression_penalty_0 :
  ridge_regression Reference.lstsq [[1]] [1] 0 = [qc 1 101]
  ∧ ridge_regression Reference.lstsq [[1]] [1] 0
    = matvec [[1]] (Reference.lstsq [[1]] [1] (Qc_of_Z 100))
  ∧ matvec [[1]] (Reference.lstsq [[1]] [1] 0) = [1]
  ∧ ridge_objective [[1]] [1] 0 (Reference.lstsq [[1]] [1] 0)
    < ridge_objective [[1]] [1] 0 (Reference.lstsq [[1]] [1] (Qc_of_Z 100)).
Proof. repeat split; compute_done. Qed.



(** * Further properties of the notebook's functions *)

(** ** Which dates the run fills *)

Lemma lookup_payoff_of (p : ModelParameters) (q c : vec) (j : nat) (qj cj : Qc) :
  (j < n p)%nat → q !! j = Some qj → c !! j = Some cj →
  payoff_of p q c !! j = Some (if decide (cj < qj) then 0 else cj).
Proof.
  intros Hj Hq Hc. unfold payoff_of.
  rewrite (lookup_tf_where _ _ _ _ _ 0 cj (lookup_greater _ _ _ _ _ Hq Hc));
    [|by apply lookup_replicate_2|done].
  by destruct (decide (cj < qj)); [rewrite bool_decide_eq_true_2 | rewrite bool_decide_eq_false_2].
Qed.

Section Dates.
Variable exp : Qc → Qc.
Variable sqrt : Qc → Qc.
Variable lstsq : matrix → vec → Qc → vec.
Variable random_normal : nat → nat → Qc.
Variable p : ModelParameters.

(** The keys each dictionary holds after a regular run: [S] has the
    keys of the steps [0 .. m]; [cashflow], [value] and
    [continuation_value] have the keys of the steps [1 .. m] and nothing
    at [0.]; every tensor has one entry per path. *)
Theorem dictionaries_dates :
  regular_run sqrt random_normal p →
  ∃ g, lsmc exp sqrt lstsq random_normal p = Returned g
    ∧ (∀ key, is_Some (g_S g !! key) ↔ ∃ t, (t ≤ m p)%nat ∧ key = date (g_t_span g) t)
    ∧ (∀ key, is_Some (g_cashflow g !! key)
              ↔ ∃ t, (1 ≤ t ≤ m p)%nat ∧ key = date (g_t_span g) t)
    ∧ (∀ key, is_Some (g_value g !! key)
              ↔ ∃ t, (1 ≤ t ≤ m p)%nat ∧ key = date (g_t_span g) t)
    ∧ (∀ key, is_Some (g_continuation_value g !! key)
              ↔ ∃ t, (1 ≤ t ≤ m p)%nat ∧ key = date (g_t_span g) t)
    ∧ g_cashflow g !! 0 = None
    ∧ g_value g !! 0 = None
    ∧ g_continuation_value g !! 0 = None
    ∧ (∀ d key v, d ∈ [g_S g; g_cashflow g; g_value g; g_continuation_value g] →
         d !! key = Some v → length v = n p).
Proof.
  intros Hreg.
  destruct (lsmc_returns exp sqrt lstsq random_normal p Hreg)
    as (g & Hg & HΔt & Hts & (HS & HSkeys) & _ & (Hcash & Hcashkeys) & Hrec & _).
  destruct Hreg as (Hm & _ & _ & Hkeys & _). rewrite <-HΔt, <-Hts in Hkeys.
  destruct Hrec as (HvT & HqT & Hrec & Hvkeys & Hqkeys).
  cbn [fst snd] in HvT, HqT, Hrec, Hvkeys, Hqkeys.
  pose proof (keys_maturity p _ _ Hkeys) as HT.
  assert (Hv : ∀ key, is_Some (g_value g !! key)
                      ↔ ∃ t, (1 ≤ t ≤ m p)%nat ∧ key = date (g_t_span g) t).
  { intros key. split.
    - intros [v Hv]. destruct (Hvkeys _ _ Hv) as (i & Hi & -> & _). exists i. split; [lia|done].
    - intros (t & Ht & ->). destruct (decide (t = m p)) as [->|Hne].
      + rewrite HT. by eexists.
      + destruct (Hrec t) as (? & _ & _ & Hv); [lia|]. by eexists. }
  assert (Hq : ∀ key, is_Some (g_continuation_value g !! key)
                      ↔ ∃ t, (1 ≤ t ≤ m p)%nat ∧ key = date (g_t_span g) t).
  { intros key. split.
    - intros [v Hq]. destruct (Hqkeys _ _ Hq) as (i & Hi & -> & _). exists i. split; [lia|done].
    - intros (t & Ht & ->). destruct (decide (t = m p)) as [->|Hne].
      + rewrite HT. by eexists.
      + destruct (Hrec t) as (? & _ & Hq & _); [lia|]. by eexists. }
  assert (Hc : ∀ key, is_Some (g_cashflow g !! key)
                      ↔ ∃ t, (1 ≤ t ≤ m p)%nat ∧ key = date (g_t_span g) t).
  { intros key. split.
    - intros [v Hc]. by apply (Hcashkeys _ _ Hc).
    - intros (t & Ht & ->). rewrite (Hcash t Ht). by eexists. }
  assert (H0 : ∀ d : gmap Qc vec,
            (∀ key, is_Some (d !! key) ↔ ∃ t, (1 ≤ t ≤ m p)%nat ∧ key = date (g_t_span g) t) →
            d !! 0 = None).
  { intros d Hd. apply eq_None_not_Some. intros (t & Ht & Heq)%Hd.
    change (Q2Qc 0) with (date (g_t_span g) 0) in Heq.
    apply (keys_inj p _ _ Hm Hkeys) in Heq; lia. }
  exists g. split; [done|]. split.
  { intros key. split.
    - intros [v Hv']. by apply (HSkeys _ _ Hv').
    - intros (t & Ht & ->). rewrite (HS t Ht). by eexists. }
  split; [done|]. split; [done|]. split; [done|].
  split; [by apply H0|]. split; [by apply H0|]. split; [by apply H0|].
  intros d key v Hd Hlook.
  repeat (apply elem_of_cons in Hd as [-> | Hd]).
  - destruct (HSkeys _ _ Hlook) as (t & Ht & ->). rewrite (HS t Ht) in Hlook.
    injection Hlook as <-. apply length_cross_section.
  - destruct (Hcashkeys _ _ Hlook) as (t & Ht & ->). rewrite (Hcash t Ht) in Hlook.
    injection Hlook as <-. by rewrite length_put_payoff, length_cross_section.
  - by destruct (Hvkeys _ _ Hlook) as (_ & _ & _ & ?).
  - by destruct (Hqkeys _ _ Hlook) as (_ & _ & _ & ?).
  - by apply elem_of_nil in Hd.
Qed.

(** Every entry of every value vector is a cash flow of the same path
    at the same or a later step [s], multiplied by [discount] once per
    step from [s] back to the step before [t]. *)
Theorem value_is_discounted_cashflow :
  regular_run sqrt random_normal p →
  ∃ g, lsmc exp sqrt lstsq random_normal p = Returned g
    ∧ ∀ t j, (1 ≤ t ≤ m p)%nat → (j < n p)%nat →
        ∃ v s c_s c,
          g_value g !! date (g_t_span g) t = Some v ∧ (t ≤ s ≤ m p)%nat
          ∧ g_cashflow g !! date (g_t_span g) s = Some c_s ∧ c_s !! j = Some c
          ∧ v !! j = Some (Nat.iter (s - t + 1) (Qcmult (g_discount g)) c).
Proof.
  intros Hreg.
  destruct (lsmc_returns exp sqrt lstsq random_normal p Hreg)
    as (g & Hg & HΔt & Hts & _ & _ & (Hcash & _) & Hrec & _).
  destruct Hreg as (Hm & _ & _ & Hkeys & _). rewrite <-HΔt, <-Hts in Hkeys.
  destruct Hrec as (HvT & _ & Hrec & _). cbn [fst snd] in HvT, Hrec.
  pose proof (keys_maturity p _ _ Hkeys) as HT.
  exists g. split; [done|].
  assert (Hcj : ∀ t j, (j < n p)%nat →
            is_Some (put_payoff (K p) (cross_section sqrt random_normal p (g_Δt g) t) !! j)).
  { intros t j Hj. apply lookup_lt_is_Some_2.
    by rewrite length_put_payoff, length_cross_section. }
  assert (Hgen : ∀ d t j, (t + d = m p)%nat → (1 ≤ t)%nat → (j < n p)%nat →
            ∃ v s c_s c,
              g_value g !! date (g_t_span g) t = Some v ∧ (t ≤ s ≤ m p)%nat
              ∧ g_cashflow g !! date (g_t_span g) s = Some c_s ∧ c_s !! j = Some c
              ∧ v !! j = Some (Nat.iter (s - t + 1) (Qcmult (g_discount g)) c)).
  { induction d as [|d IH]; intros t j Htd Ht Hj.
    - replace t with (m p) by lia. destruct (Hcj (m p) j Hj) as [c Hc].
      eexists _, (m p), _, c.
      split; [rewrite HT; exact HvT|]. split; [lia|].
      split; [apply Hcash; lia|]. split; [done|].
      unfold muls. rewrite list_lookup_fmap, Hc. simpl. f_equal.
      replace (m p - m p + 1)%nat with 1%nat by lia. simpl. ring.
    - destruct (Hrec t) as (v_next & Hnext & _ & Hv); [lia|].
      destruct (IH (t + 1)%nat j) as (v' & s & c_s & c & Hv' & Hs & Hcs & Hcsj & Hvj);
        [lia | lia | done |].
      rewrite Hnext in Hv'. injection Hv' as <-.
      destruct (Hcj t j Hj) as [cj Hcj'].
      destruct (lookup_lt_is_Some_2
                  (continuation_at sqrt lstsq random_normal p (g_Δt g) t v_next) j)
        as [qj Hqj]; [by rewrite length_continuation_at|].
      assert (Hvt : value_at sqrt lstsq random_normal p (g_Δt g) (g_discount g) t v_next !! j
                    = Some (g_discount g
                            * (if bool_decide (qj < cj) then cj
                               else Nat.iter (s - (t + 1) + 1) (Qcmult (g_discount g)) c))).
      { unfold value_at, smul. rewrite list_lookup_fmap.
        by rewrite (lookup_tf_where _ _ _ _ _ _ _ (lookup_greater _ _ _ _ _ Hcj' Hqj) Hcj' Hvj). }
      destruct (bool_decide (qj < cj)).
      + eexists _, t, _, cj. split; [exact Hv|]. split; [lia|].
        split; [apply Hcash; lia|]. split; [done|]. rewrite Hvt. f_equal.
        by replace (t - t + 1)%nat with 1%nat by lia.
      + eexists _, s, c_s, c. split; [exact Hv|]. split; [lia|].
        split; [done|]. split; [done|]. rewrite Hvt. f_equal.
        by replace (s - t + 1)%nat with (S (s - (t + 1) + 1)) by lia. }
  intros t j Ht Hj. apply (Hgen (m p - t)%nat); [lia | lia | done].
Qed.

(** At maturity the recorded payoff is the cash flow itself: the
    continuation value is zero there and no cash flow is negative. *)
Theorem payoff_at_maturity :
  regular_run sqrt random_normal p →
  ∃ g, lsmc exp sqrt lstsq random_normal p = Returned g
    ∧ ∃ c_T, g_cashflow g !! T p = Some c_T
        ∧ g_payoff_dict g !! (m p - 1)%nat = Some c_T
        ∧ last (g_payoff_dict g) = Some c_T.
Proof.
  intros Hreg.
  destruct (lsmc_returns exp sqrt lstsq random_normal p Hreg)
    as (g & Hg & HΔt & Hts & _ & _ & (Hcash & _) & Hrec & (Hlen & Hpay) & _).
  destruct Hreg as (Hm & _ & _ & Hkeys & _). rewrite <-HΔt, <-Hts in Hkeys.
  destruct Hrec as (_ & HqT & _). cbn [fst snd] in HqT.
  pose proof (keys_maturity p _ _ Hkeys) as HT.
  exists g. split; [done|].
  destruct (Hpay (m p)) as (q & Hq & _ & Hp); [lia|].
  rewrite HT, HqT in Hq. injection Hq as <-.
  set (c := put_payoff (K p) (cross_section sqrt random_normal p (g_Δt g) (m p))) in *.
  assert (Hcl : length c = n p) by (unfold c; by rewrite length_put_payoff, length_cross_section).
  assert (Heq : payoff_of p (zeros (n p)) c = c).
  { apply list_eq. intros j. destruct (c !! j) as [cj|] eqn:Hcj.
    - assert (Hj : (j < n p)%nat) by (rewrite <-Hcl; by eapply lookup_lt_Some).
      rewrite (lookup_payoff_of p (zeros (n p)) _ j 0 cj Hj); [|by apply lookup_replicate_2|done].
      rewrite decide_False; [done|]. apply Qcle_not_lt.
      pose proof (put_payoff_nonneg (K p) (cross_section sqrt random_normal p (g_Δt g) (m p)))
        as Hnn.
      rewrite Forall_forall in Hnn. apply Hnn. by eapply list_elem_of_lookup_2.
    - apply lookup_ge_None. apply lookup_ge_None in Hcj.
      rewrite (length_payoff_of p); [lia | apply length_replicate | done]. }
  rewrite Heq in Hp. exists c. split; [rewrite <-HT; apply Hcash; lia|]. split; [done|].
  rewrite last_lookup, Hlen. by replace (pred (m p)) with (m p - 1)%nat by lia.
Qed.
End Dates.

Lemma dictionaries_dates_witness :
  regular_run Reference.sqrt Reference.random_normal example_parameters
  ∧ ∃ g, lsmc Reference.exp Reference.sqrt Reference.lstsq Reference.random_normal
           example_parameters = Returned g
         ∧ g_cashflow g !! 0 = None.
Proof.
  split; [exact example_regular_run|].
  destruct (dictionaries_dates Reference.exp Reference.sqrt Reference.lstsq
              Reference.random_normal example_parameters example_regular_run)
    as (g & Hg & _ & _ & _ & _ & Hcash & _).
  exists g. by split.
Defined.

Lemma value_is_discounted_cashflow_witness :
  regular_run Reference.sqrt Reference.random_normal example_parameters
  ∧ ∃ g, lsmc Reference.exp Reference.sqrt Reference.lstsq Reference.random_normal
           example_parameters = Returned g
         ∧ is_Some (g_value g !! date (g_t_span g) 1).
Proof.
  split; [exact example_regular_run|].
  destruct (value_is_discounted_cashflow Reference.exp Reference.sqrt Reference.lstsq
              Reference.random_normal example_parameters example_regular_run)
    as (g & Hg & Hval).
  exists g. split; [done|].
  destruct (Hval 1%nat 0%nat) as (v & _ & _ & _ & Hv & _); [simpl; lia | simpl; lia |].
  by exists v.
Defined.

Lemma payoff_at_maturity_witness :
  regular_run Reference.sqrt Reference.random_normal example_parameters
  ∧ ∃ g, lsmc Reference.exp Reference.sqrt Reference.lstsq Reference.random_normal
           example_parameters = Returned g
         ∧ last (g_payoff_dict g) = g_cashflow g !! T example_parameters.
Proof.
  split; [exact example_regular_run|].
  destruct (payoff_at_maturity Reference.exp Reference.sqrt Reference.lstsq
              Reference.random_normal example_parameters example_regular_run)
    as (g & Hg & c_T & Hc & _ & Hlast).
  exists g. split; [done|]. by rewrite Hc, Hlast.
Defined.
(** ** First exercise *)

Lemma keep_first_positive_app (l1 l2 : vec) (a : Qc) :
  Forall (λ b, ¬ 0 < b) l1 → 0 < a →
  keep_first_positive (l1 ++ a :: l2)
  = replicate (length l1) 0 ++ a :: replicate (length l2) 0.
Proof.
  intros Hl1 Ha. induction Hl1 as [|b l1 Hb _ IH]; simpl.
  - by rewrite decide_True.
  - rewrite decide_False by done. by rewrite IH.
Qed.

(** Causality of the extraction: in a row whose first strictly positive
    entry is [a], everything before and after it comes out zero, whatever
    the later entries were. *)
Theorem first_one_first_exercise (x : matrix) (i : nat) (l1 l2 : vec) (a : Qc) :
  rectangular x →
  x !! i = Some (l1 ++ a :: l2) →
  Forall (λ b, ¬ 0 < b) l1 → 0 < a →
  first_one x !! i = Some (replicate (length l1) 0 ++ a :: replicate (length l2) 0).
Proof.
  intros Hrect Hrow Hl1 Ha. rewrite (first_one_scan x Hrect).
  rewrite list_lookup_fmap, Hrow. simpl. f_equal.
  by apply keep_first_positive_app.
Qed.

Lemma first_one_first_exercise_witness :
  rectangular payoff_example
  ∧ first_one payoff_example !! 0%nat
    = Some (replicate 2 0 ++ Qc_of_Z 3 :: replicate 4 0).
Proof.
  assert (Hrect : rectangular payoff_example).
  { intros row Hin. unfold payoff_example in Hin.
    repeat (apply elem_of_cons in Hin as [-> | Hin]; [reflexivity|]).
    by apply elem_of_nil in Hin. }
  split; [exact Hrect|].
  apply (first_one_first_exercise payoff_example 0 [0; 0] [0; 0; Qc_of_Z 7; 0] (Qc_of_Z 3) Hrect).
  - reflexivity.
  - repeat constructor; compute_done.
  - compute_done.
Defined.


(** The first strictly positive entry of a row, with its column. *)
Fixpoint first_exercise (row : vec) : option (nat * Qc) :=
  match row with
  | [] => None
  | a :: l => if decide (0 < a) then Some (0%nat, a)
              else prod_map S id <$> first_exercise l
  end.

Lemma first_exercise_Some (row : vec) (j : nat) (a : Qc) :
  first_exercise row = Some (j, a) →
  row !! j = Some a ∧ 0 < a ∧ Forall (λ b, ¬ 0 < b) (take j row).
Proof.
  revert j. induction row as [|b l IH]; intros j; [done|].
  cbn [first_exercise]. destruct (decide (0 < b)) as [Hb|Hb].
  - intros [= <- <-]. split; [done|]. split; [done|constructor].
  - destruct (first_exercise l) as [[j' a']|] eqn:Hl; [|done].
    intros [= <- <-]. destruct (IH j' eq_refl) as (H1 & H2 & H3).
    split; [done|]. split; [done|]. by constructor.
Qed.

Lemma discounted_sum_cons (d : nat → Qc) (m : nat) (a : Qc) (l : vec) :
  discounted_sum d (S m) (a :: l) = a * d 0%nat + discounted_sum (d ∘ S) m l.
Proof.
  unfold discounted_sum. cbn [seq fmap list_fmap reduce_sum foldr nth].
  f_equal. rewrite <-fmap_S_seq, <-list_fmap_compose. done.
Qed.

Lemma discounted_sum_zeros (d : nat → Qc) (m k : nat) :
  discounted_sum d m (replicate k 0) = 0.
Proof.
  unfold discounted_sum. generalize (seq 0 m). intros l.
  induction l as [|i l IH]; [done|]. cbn [fmap list_fmap reduce_sum foldr].
  fold (reduce_sum ((λ i, nth i (replicate k 0) 0 * d i) <$> l)). rewrite IH.
  assert (Hnth : nth i (replicate k 0) 0 = 0).
  { destruct (replicate k 0 !! i) as [a|] eqn:Ha.
    - rewrite (nth_lookup_Qc _ _ _ Ha). by apply lookup_replicate_1 in Ha as [-> _].
    - apply nth_overflow. by apply lookup_ge_None. }
  rewrite Hnth. ring.
Qed.

(** After extraction a row's sum across dates has a single term. *)
Lemma discounted_sum_first_exercise (d : nat → Qc) (m : nat) (row : vec) :
  (length row ≤ m)%nat →
  discounted_sum d m (keep_first_positive row)
  = match first_exercise row with
    | Some (j, a) => a * d j
    | None => 0
    end.
Proof.
  revert d m. induction row as [|a l IH]; intros d m Hlen.
  - apply (discounted_sum_zeros d m 0).
  - destruct m as [|m]; [simpl in Hlen; lia|].
    cbn [keep_first_positive first_exercise].
    destruct (decide (0 < a)) as [Ha|Ha].
    + rewrite discounted_sum_cons, discounted_sum_zeros. ring.
    + rewrite discounted_sum_cons, IH by (simpl in Hlen; lia).
      destruct (first_exercise l) as [[j a']|]; simpl; ring.
Qed.

Lemma reduce_sum_discounted_zeros (d : nat → Qc) (m : nat) (M : matrix) :
  Forall (λ row, row = replicate m 0) M →
  reduce_sum (discounted_sum d m <$> M) = 0.
Proof.
  induction 1 as [|row rows -> _ IH]; [done|].
  cbn [fmap list_fmap reduce_sum foldr].
  fold (reduce_sum (discounted_sum d m <$> rows)).
  rewrite IH, discounted_sum_zeros. ring.
Qed.

Section FirstExercisePrice.
Variable exp : Qc → Qc.
Variable sqrt : Qc → Qc.
Variable lstsq : matrix → vec → Qc → vec.
Variable random_normal : nat → nat → Qc.
Variable p : ModelParameters.

(** What one path contributes to the price: the first strictly positive
    recorded payoff times the factor of its column, or nothing. *)
Definition path_payoff (Δt : Qc) (row : vec) : Qc :=
  match first_exercise row with
  | Some (j, a) => a * column_discount exp p Δt j
  | None => 0
  end.

(** On a regular run the price is the mean over the paths of
    [path_payoff] applied to the rows of the stacked payoff matrix: only
    the first exercise of each path is paid. *)
Theorem price_is_mean_of_first_exercises :
  regular_run sqrt random_normal p →
  ∃ g, lsmc exp sqrt lstsq random_normal p = Returned g
    ∧ g_price g
      = reduce_sum (path_payoff (g_Δt g) <$> g_payoff_stacked g) / Qc_of_Z (Z.of_nat (n p))
    ∧ length (path_payoff (g_Δt g) <$> g_payoff_stacked g) = n p
    ∧ ∀ row j a, row ∈ g_payoff_stacked g → first_exercise row = Some (j, a) →
        (j < m p)%nat ∧ row !! j = Some a ∧ 0 < a ∧ Forall (λ b, ¬ 0 < b) (take j row).
Proof.
  intros Hreg.
  destruct (lsmc_returns exp sqrt lstsq random_normal p Hreg)
    as (g & Hg & _ & _ & _ & _ & _ & _ & Hpay & Hst & Hfo & Hdp & Hprice).
  destruct Hreg as (Hm & _).
  destruct (payoff_matrix exp sqrt random_normal p (g_Δt g) (g_t_span g) Hm _ _ Hpay)
    as (Hrows & Hcols & _ & Hscan & Hsum).
  rewrite <-Hst in Hrows, Hcols, Hscan, Hsum. rewrite <-Hfo in Hscan, Hsum.
  rewrite <-Hdp in Hsum.
  exists g. split; [done|]. split; [|split].
  - rewrite Hprice, Hsum, Hscan, <-list_fmap_compose. unfold mean_of.
    rewrite length_fmap, Hrows. f_equal. f_equal.
    apply list_fmap_ext. intros i row Hrow. simpl. unfold path_payoff.
    apply discounted_sum_first_exercise.
    rewrite (Hcols row); [done|]. by eapply list_elem_of_lookup_2.
  - by rewrite length_fmap.
  - intros row j a Hrow Hfirst.
    destruct (first_exercise_Some row j a Hfirst) as (Hj & Ha & Hbefore).
    split; [|done]. rewrite <-(Hcols row Hrow). by eapply lookup_lt_Some.
Qed.

(** No simulated price of the steps [1 .. m] is below the strike. *)
Definition never_in_the_money : Prop :=
  Forall (λ t, Forall (λ s, K p ≤ s) (cross_section sqrt random_normal p (time_step p) t))
         (seq 1 (m p)).

(** A put that is never in the money is priced at zero: on a regular
    run on which the strike is at most every simulated price of the
    steps [1 .. m], every cash flow, every row of the extracted payoff
    matrix and the price are zero. *)
Theorem never_in_the_money_price :
  regular_run sqrt random_normal p → never_in_the_money →
  ∃ g, lsmc exp sqrt lstsq random_normal p = Returned g
    ∧ (∀ t v, g_cashflow g !! t = Some v → v = zeros (n p))
    ∧ (∀ row, row ∈ g_payoff g → row = replicate (m p) 0)
    ∧ g_price g = 0.
Proof.
  intros Hreg Hotm.
  destruct (lsmc_returns exp sqrt lstsq random_normal p Hreg)
    as (g & Hg & HΔt & _ & _ & _ & (Hcash & Hcashkeys) & Hrec & Hpay & Hst & Hfo & Hdp & Hprice).
  destruct Hreg as (Hm & _).
  destruct (payoff_matrix exp sqrt random_normal p (g_Δt g) (g_t_span g) Hm _ _ Hpay)
    as (Hrows & Hcols & Hent & Hscan & Hsum).
  rewrite <-Hst in Hrows, Hcols, Hent, Hscan, Hsum. rewrite <-Hfo in Hscan, Hsum.
  rewrite <-Hdp in Hsum.
  unfold never_in_the_money in Hotm. rewrite <-HΔt, Forall_forall in Hotm.
  exists g. split; [done|].
  assert (Hzero : ∀ t, (1 ≤ t ≤ m p)%nat →
            put_payoff (K p) (cross_section sqrt random_normal p (g_Δt g) t) = zeros (n p)).
  { intros t Ht. symmetry. apply replicate_as_Forall.
    split; [by rewrite length_put_payoff, length_cross_section|].
    unfold put_payoff. apply Forall_fmap.
    eapply Forall_impl; [apply (Hotm t), list_elem_of_In, in_seq; lia|].
    intros s Hs. simpl. unfold Qcmax. rewrite decide_False; [done|].
    apply Qcle_not_lt. apply Qcle_minus_iff in Hs.
    apply Qcopp_le_compat in Hs.
    replace (- (s + - K p)) with (K p - s) in Hs by ring.
    by replace (- 0) with (Q2Qc 0) in Hs by ring. }
  assert (Hstacked : ∀ row, row ∈ g_payoff_stacked g → Forall (λ b, ¬ 0 < b) row).
  { intros row (j & Hj)%list_elem_of_lookup_1. apply Forall_lookup. intros i b Hb.
    assert (Hi : (i < m p)%nat).
    { rewrite <-(Hcols row) by (by eapply list_elem_of_lookup_2). by eapply lookup_lt_Some. }
    assert (Hjn : (j < n p)%nat) by (rewrite <-Hrows; by eapply lookup_lt_Some).
    destruct (Hent (i + 1)%nat j) as (q & row' & Hq & Hrow' & Hentry); [lia|done|].
    rewrite Hj in Hrow'. injection Hrow' as <-.
    replace (i + 1 - 1)%nat with i in Hentry by lia. rewrite Hb in Hentry.
    rewrite Hzero in Hentry by lia.
    destruct (Hpay) as (_ & Hpay'). destruct (Hpay' (i + 1)%nat) as (q' & Hq' & Hql & _); [lia|].
    rewrite Hq in Hq'. injection Hq' as <-.
    destruct (lookup_lt_is_Some_2 q j) as [qj Hqj]; [lia|].
    rewrite (lookup_payoff_of p q (zeros (n p)) j qj 0 Hjn Hqj) in Hentry
      by (by apply lookup_replicate_2).
    assert (b = 0) as -> by (by destruct (decide (0 < qj)); injection Hentry as ->).
    compute_done. }
  split.
  { intros t v Hv. destruct (Hcashkeys _ _ Hv) as (i & Hi & ->).
    rewrite (Hcash i Hi) in Hv. injection Hv as <-. by apply Hzero. }
  assert (Hrowsz : ∀ row, row ∈ g_payoff g → row = replicate (m p) 0).
  { intros row. rewrite Hscan. intros (row0 & -> & Hin)%list_elem_of_fmap.
    rewrite (keep_first_positive_none row0 (Hstacked row0 Hin)).
    by rewrite (Hcols row0 Hin). }
  split; [done|].
  rewrite Hprice, Hsum. unfold mean_of.
  assert (Hsums : reduce_sum (discounted_sum (column_discount exp p (g_Δt g)) (m p)
                              <$> g_payoff g) = 0).
  { apply reduce_sum_discounted_zeros. by apply Forall_forall. }
  rewrite Hsums. unfold Qcdiv. ring.
Qed.
End FirstExercisePrice.

#[global] Instance never_in_the_money_dec sqrt random_normal p :
  Decision (never_in_the_money sqrt random_normal p).
Proof. unfold never_in_the_money. apply _. Defined.

Lemma price_is_mean_of_first_exercises_witness :
  regular_run Reference.sqrt Reference.random_normal example_parameters
  ∧ ∃ g, lsmc Reference.exp Reference.sqrt Reference.lstsq Reference.random_normal
           example_parameters = Returned g
         ∧ length (path_payoff Reference.exp example_parameters (g_Δt g)
                     <$> g_payoff_stacked g) = n example_parameters.
Proof.
  split; [exact example_regular_run|].
  destruct (price_is_mean_of_first_exercises Reference.exp Reference.sqrt Reference.lstsq
              Reference.random_normal example_parameters example_regular_run)
    as (g & Hg & _ & Hlen & _).
  exists g. by split.
Defined.

Lemma never_in_the_money_price_witness :
  regular_run Reference.sqrt Reference.random_normal zero_strike
  ∧ never_in_the_money Reference.sqrt Reference.random_normal zero_strike
  ∧ ∃ g, lsmc Reference.exp Reference.sqrt Reference.lstsq Reference.random_normal
           zero_strike = Returned g
         ∧ g_price g = 0.
Proof.
  assert (Hreg : regular_run Reference.sqrt Reference.random_normal zero_strike)
    by compute_done.
  assert (Hotm : never_in_the_money Reference.sqrt Reference.random_normal zero_strike)
    by compute_done.
  split; [exact Hreg|]. split; [exact Hotm|].
  destruct (never_in_the_money_price Reference.exp Reference.sqrt Reference.lstsq
              Reference.random_normal zero_strike Hreg Hotm) as (g & Hg & _ & _ & Hprice).
  exists g. by split.
Defined.

(** ** Grids *)

Section Grids.
Variable exp : Qc → Qc.
Variable sqrt : Qc → Qc.
Variable lstsq : matrix → vec → Qc → vec.
Variable random_normal : nat → nat → Qc.
Variable p : ModelParameters.

(** With [T = 1] and [m = 3] the keys do not chain: [t_span] is
    [0.333333, 0.666667, 1.0], the first step finds [S[0.]], and the
    second asks for [S[np.round(0.666667 - 0.3333333333333333, 6)]],
    that is [S[0.333334]], which was never stored.  Whatever the other
    parameters, the run raises this KeyError. *)
Theorem thirds_raise_KeyError :
  T p = 1 → m p = 3%nat →
  lsmc exp sqrt lstsq random_normal p = Raised (KeyError (fl (qc 333334 1000000))).
Proof.
  intros HT Hm. unfold lsmc, true_div, t_span. rewrite Hm, HT.
  rewrite decide_False by done. rewrite bind_Returned.
  set (Δt := fl (1 / Qc_of_Z (Z.of_nat 3))).
  assert (Hspan : np_arange Δt (fl (1 + Δt)) Δt
                  = Returned [Δt; fl (Δt + Δt); fl (Δt + fl (Qc_of_Z (Z.of_nat 2) * fl (fl (Δt + Δt) - Δt)))])
    by compute_done.
  rewrite Hspan, !bind_Returned. clear Hspan.
  unfold simulate. cbn [fmap list_fmap for_each].
  unfold simulate_body. cbv zeta. cbn [fst snd].
  assert (H1 : np_round6 (fl (np_round6 Δt - Δt)) = 0) by compute_done.
  rewrite H1, (getitem_Some _ _ _ (lookup_singleton_eq _ _)), bind_Returned.
  unfold advance, np_sqrt. rewrite decide_False by compute_done.
  rewrite !bind_Returned. cbn [fst snd].
  assert (H2 : np_round6 (fl (np_round6 (fl (Δt + Δt)) - Δt)) = fl (qc 333334 1000000))
    by compute_done.
  rewrite H2, getitem_None; [done|].
  rewrite lookup_insert_ne by compute_done.
  by rewrite lookup_singleton_ne by compute_done.
Qed.

(** The grid of the notebook, [T = 1] and [m = 10]: the keys chain. *)
Lemma tenths_chained :
  T p = 1 → m p = 10%nat → 0 ≤ time_step p ∧ chained p (time_step p) (dates p).
Proof.
  intros HT Hm. unfold chained, dates, time_step, t_span. rewrite HT, Hm.
  split; [compute_done|]. repeat split; compute_done.
Qed.

(** On the grid of the notebook, [T = 1] and [m = 10], a run with at
    least one path and no constant cross-section returns, and its ten
    keys are the floats [0.1, 0.2, ..., 1.0]. *)
Theorem tenths_return :
  T p = 1 → m p = 10%nat → n p ≠ 0%nat →
  nondegenerate sqrt random_normal p (time_step p) →
  ∃ g, lsmc exp sqrt lstsq random_normal p = Returned g
    ∧ g_t_span g = (λ i, fl (Qc_of_Z (Z.of_nat i) / Qc_of_Z 10)) <$> seq 1 10
    ∧ (∀ i, (i ≤ 10)%nat → is_Some (g_S g !! date (g_t_span g) i)).
Proof.
  intros HT Hm Hn Hnd. destruct (tenths_chained HT Hm) as [Hpos Hkeys].
  assert (Hreg : regular_run sqrt random_normal p).
  { split; [lia|]. done. }
  destruct (lsmc_returns exp sqrt lstsq random_normal p Hreg)
    as (g & Hg & _ & Hts & (HS & _) & _).
  exists g. split; [done|]. split.
  - rewrite Hts. unfold dates, time_step, t_span. rewrite HT, Hm. compute_done.
  - intros i Hi. rewrite HS by lia. by eexists.
Qed.

(** With [T = 0.1] and [m = 2], [np.arange(Δt, T + Δt, Δt)] has three
    entries, not two: in floats [T + Δt] is [0.15000000000000002] and
    [(stop - start) / step] just above 2.  The simulation goes one step
    beyond [T]; the backward loop then starts at [t = 0.1] and, on a
    cross-section there that is not constant, asks for [value[0.15]],
    which was never stored. *)
Theorem arange_overshoots :
  T p = fl (qc 1 10) → m p = 2%nat →
  t_span p (time_step p) = Returned [fl (qc 5 100); fl (qc 1 10); fl (qc 15 100)]
  ∧ (reduce_min (cross_section sqrt random_normal p (time_step p) 2)
     ≠ reduce_max (cross_section sqrt random_normal p (time_step p) 2) →
     lsmc exp sqrt lstsq random_normal p = Raised (KeyError (fl (qc 15 100)))).
Proof.
  intros HT Hm.
  assert (Hspan : t_span p (time_step p)
                  = Returned [fl (qc 5 100); fl (qc 1 10); fl (qc 15 100)]).
  { unfold time_step, t_span. rewrite HT, Hm. compute_done. }
  split; [done|]. intros Hnd.
  unfold lsmc, true_div. rewrite decide_False by (rewrite Hm; done).
  rewrite bind_Returned. fold (time_step p). rewrite Hspan, bind_Returned.
  apply scale_floats_returns in Hnd.
  assert (HΔt : time_step p = fl (qc 5 100)).
  { unfold time_step. rewrite HT, Hm. compute_done. }
  rewrite HT, HΔt in *. clear Hspan.
  set (k1 := fl (qc 5 100)) in *. set (k2 := fl (qc 1 10)). set (k3 := fl (qc 15 100)).
  assert (Hp1 : np_round6 (fl (k1 - k1)) = 0) by compute_done.
  assert (Hp2 : np_round6 (fl (k2 - k1)) = k1) by compute_done.
  assert (Hp3 : np_round6 (fl (k3 - k1)) = k2) by compute_done.
  assert (Hn2 : np_round6 (fl (k2 + k1)) = k3) by compute_done.
  assert (H21 : k2 ≠ k1) by compute_done. assert (H31 : k3 ≠ k1) by compute_done.
  assert (H32 : k3 ≠ k2) by compute_done. assert (H23 : k2 ≠ k3) by compute_done.
  assert (Hpos : ¬ k1 < 0) by compute_done.
  clearbody k1 k2 k3.
  unfold simulate. cbn [for_each]. unfold simulate_body. cbv zeta. cbn [fst snd].
  rewrite Hp1, (getitem_Some _ _ _ (lookup_singleton_eq _ _)), bind_Returned.
  unfold advance, np_sqrt. rewrite decide_False by exact Hpos.
  rewrite !bind_Returned. cbn [fst snd].
  rewrite Hp2, (getitem_Some _ _ _ (lookup_insert_eq _ _ _)), !bind_Returned.
  cbn [fst snd].
  rewrite Hp3, (getitem_Some _ _ _ (lookup_insert_eq _ _ _)), !bind_Returned.
  cbn [fst snd].
  set (S := <[k3 := _]> (<[k2 := _]> (<[k1 := _]> {[ _ := _ ]}))).
  assert (HS1 : S !! k1 = Some (cross_section sqrt random_normal p k1 1)).
  { unfold S. rewrite !lookup_insert_ne by assumption. apply lookup_insert_eq. }
  assert (HS2 : S !! k2 = Some (cross_section sqrt random_normal p k1 2)).
  { unfold S. rewrite lookup_insert_ne by assumption. apply lookup_insert_eq. }
  assert (HS3 : S !! k3 = Some (cross_section sqrt random_normal p k1 3)).
  { unfold S. apply lookup_insert_eq. }
  clearbody S.
  unfold dict_comprehension. cbn [for_each].
  rewrite (getitem_Some S k1 _ HS1), !bind_Returned.
  rewrite (getitem_Some S k2 _ HS2), !bind_Returned.
  rewrite (getitem_Some S k3 _ HS3), !bind_Returned.
  set (cashflow := <[k3 := _]> (<[k2 := _]> (<[k1 := _]> ∅))).
  assert (Hc2 : cashflow !! k2
                = Some (put_payoff (K p) (cross_section sqrt random_normal p k1 2))).
  { unfold cashflow. rewrite lookup_insert_ne by assumption. apply lookup_insert_eq. }
  clearbody cashflow.
  rewrite (getitem_Some cashflow k2 _ Hc2), bind_Returned.
  cbn [rev app tail for_each]. unfold recursion_body. cbv zeta.
  rewrite Hn2, (getitem_Some S k2 _ HS2), bind_Returned.
  rewrite Hnd, bind_Returned.
  rewrite (getitem_None _ k3); [done|].
  by apply lookup_singleton_ne.
Qed.
End Grids.

(** Draws that differ from path to path, and one Newton step for the
    square root. *)
Definition path_draws (call j : nat) : Qc := Qc_of_Z (Z.of_nat j) - 1.
Definition coarse_sqrt (x : Qc) : Qc := (1 + x) / 2.

Definition notebook_grid : ModelParameters :=
  {| Spot := Qc_of_Z 36; σ := qc 1 5; K := Qc_of_Z 40; r := qc 3 50; T := 1;
     order := 3; n := 2; m := 10 |}.

Definition thirds : ModelParameters :=
  {| Spot := Qc_of_Z 36; σ := qc 1 5; K := Qc_of_Z 40; r := qc 3 50; T := 1;
     order := 3; n := 4; m := 3 |}.

Lemma thirds_raise_KeyError_witness :
  T thirds = 1 ∧ m thirds = 3%nat
  ∧ raised (lsmc Reference.exp Reference.sqrt Reference.lstsq Reference.random_normal thirds)
    = Some (KeyError (fl (qc 333334 1000000))).
Proof.
  split; [reflexivity|]. split; [reflexivity|].
  by rewrite (thirds_raise_KeyError Reference.exp Reference.sqrt Reference.lstsq
                Reference.random_normal thirds eq_refl eq_refl).
Defined.

Lemma tenths_return_witness :
  T notebook_grid = 1 ∧ m notebook_grid = 10%nat ∧ n notebook_grid ≠ 0%nat
  ∧ nondegenerate coarse_sqrt path_draws notebook_grid (time_step notebook_grid)
  ∧ ∃ g, lsmc Reference.exp coarse_sqrt Reference.lstsq path_draws notebook_grid
         = Returned g
         ∧ length (g_t_span g) = 10%nat.
Proof.
  assert (Hn : n notebook_grid ≠ 0%nat) by (simpl; lia).
  assert (Hnd : nondegenerate coarse_sqrt path_draws notebook_grid
                  (time_step notebook_grid)).
  { unfold nondegenerate. compute_done. }
  split; [reflexivity|]. split; [reflexivity|]. split; [exact Hn|]. split; [exact Hnd|].
  destruct (tenths_return Reference.exp coarse_sqrt Reference.lstsq path_draws
              notebook_grid eq_refl eq_refl Hn Hnd) as (g & Hg & Hts & _).
  exists g. split; [done|]. by rewrite Hts.
Defined.

Definition overshooting : ModelParameters :=
  {| Spot := Qc_of_Z 36; σ := qc 1 5; K := Qc_of_Z 40; r := qc 3 50; T := fl (qc 1 10);
     order := 3; n := 4; m := 2 |}.

Lemma arange_overshoots_witness :
  T overshooting = fl (qc 1 10) ∧ m overshooting = 2%nat
  ∧ length <$> returned (t_span overshooting (time_step overshooting)) = Some 3%nat.
Proof.
  split; [reflexivity|]. split; [reflexivity|].
  destruct (arange_overshoots Reference.exp Reference.sqrt Reference.lstsq
              Reference.random_normal overshooting eq_refl eq_refl) as [Hspan _].
  by rewrite Hspan.
Defined.
